(** * BESS cash-flow model: the calculation engine of
    [src/app/components/BESSCashFlowModel.tsx]

    The development embeds the engine of the component (the [calc] memo,
    the [sensitivityData] memo and the [calcIRR] utility) and settles the
    properties stated about it.

    Number model.  A JavaScript [number] is modelled as an exact rational
    extended with the three IEEE special values, [PInf], [NInf] and [NaN]:
    the special values arise and propagate as in the language (division by
    zero, [Infinity - Infinity], comparisons with [NaN] are false), while
    the rounding error of binary64 arithmetic, overflow and the sign of
    zero are not modelled.  Decimal literals of the source ([0.015],
    [359.77]) denote the decimal they spell.  Every operation keeps its
    rational result in lowest terms ([Qred]), which does not change its
    value.  Statements on quantities that binary64 evaluates with
    cancellation, absorption or overflow (the annuity denominator
    [(1+r)^n - 1] at tiny rates, the halved steps of the solver, products
    of huge inputs) are given on input ranges, or with margins, that keep
    clear of them; lemmas that hold in exact arithmetic only say so. *)

From Stdlib Require Import ZArith QArith Qround Qabs Qpower Qreduction.
From Stdlib Require Import List Bool Lia Lqa String Ascii.
From Stdlib Require Import Setoid Morphisms DecimalString DecimalPos DecimalZ.
Import ListNotations.

Local Open Scope Q_scope.

(* ------------------------------------------------------------------ *)
(** ** JavaScript numbers *)
(* ------------------------------------------------------------------ *)

Module JS.

Inductive num : Type :=
| Fin (q : Q)
| PInf
| NInf
| NaN.

Definition is_finite (x : num) : bool :=
  match x with Fin _ => true | _ => false end.

(** Unary minus. *)
Definition nneg (x : num) : num :=
  match x with
  | Fin q => Fin (Qred (- q))
  | PInf => NInf
  | NInf => PInf
  | NaN => NaN
  end.

(** [x + y]. *)
Definition nadd (x y : num) : num :=
  match x, y with
  | NaN, _ | _, NaN => NaN
  | Fin a, Fin b => Fin (Qred (a + b))
  | PInf, NInf | NInf, PInf => NaN
  | PInf, _ | _, PInf => PInf
  | NInf, _ | _, NInf => NInf
  end.

(** [x - y], which IEEE arithmetic defines as [x + (-y)]. *)
Definition nsub (x y : num) : num := nadd x (nneg y).

(** The infinity whose sign is the sign of the rational [q]; [NaN] when
    [q] is zero. *)
Definition inf_of_sign (q : Q) : num :=
  match q ?= 0 with
  | Gt => PInf
  | Lt => NInf
  | Eq => NaN
  end.

(** [x * y]. *)
Definition nmul (x y : num) : num :=
  match x, y with
  | NaN, _ | _, NaN => NaN
  | Fin a, Fin b => Fin (Qred (a * b))
  | Fin a, PInf | PInf, Fin a => inf_of_sign a
  | Fin a, NInf | NInf, Fin a => inf_of_sign (- a)
  | PInf, PInf | NInf, NInf => PInf
  | PInf, NInf | NInf, PInf => NInf
  end.

(** [x / y].  A non-zero finite number divided by zero is an infinity (of
    the sign of the dividend, the zero being read as [+0]); [0 / 0] and
    [Infinity / Infinity] are [NaN]. *)
Definition ndiv (x y : num) : num :=
  match x, y with
  | NaN, _ | _, NaN => NaN
  | Fin a, Fin b =>
      if Qeq_bool b 0 then inf_of_sign a else Fin (Qred (a / b))
  | Fin _, PInf | Fin _, NInf => Fin 0
  | PInf, Fin b => if Qle_bool 0 b then PInf else NInf
  | NInf, Fin b => if Qle_bool 0 b then NInf else PInf
  | _, _ => NaN
  end.

(** [Math.pow(x, n)] for an integer exponent [n]. *)
Definition npow (x : num) (n : Z) : num :=
  if (n =? 0)%Z then Fin 1
  else
    match x with
    | NaN => NaN
    | Fin q =>
        if (n <? 0)%Z && Qeq_bool q 0 then PInf else Fin (Qred (q ^ n))
    | PInf => if (0 <? n)%Z then PInf else Fin 0
    | NInf =>
        if (0 <? n)%Z then (if Z.odd n then NInf else PInf) else Fin 0
    end.

(** [Math.round(x)]: the integer nearest to [x], ties towards
    [+Infinity]. *)
Definition nround (x : num) : num :=
  match x with
  | Fin q => Fin (inject_Z (Qfloor (q + (1 # 2))))
  | _ => x
  end.

(** [Math.abs(x)]. *)
Definition nabs (x : num) : num :=
  match x with
  | Fin q => Fin (Qabs q)
  | PInf | NInf => PInf
  | NaN => NaN
  end.

(** Ordering of two numbers; [None] when one of them is [NaN]. *)
Definition ncmp (x y : num) : option comparison :=
  match x, y with
  | NaN, _ | _, NaN => None
  | Fin a, Fin b => Some (a ?= b)
  | PInf, PInf | NInf, NInf => Some Eq
  | PInf, _ | _, NInf => Some Gt
  | NInf, _ | _, PInf => Some Lt
  end.

(** [x > y], [x < y], [x <= y] and [x === y]. *)
Definition ngtb (x y : num) : bool :=
  match ncmp x y with Some Gt => true | _ => false end.

Definition nltb (x y : num) : bool :=
  match ncmp x y with Some Lt => true | _ => false end.

Definition nleb (x y : num) : bool :=
  match ncmp x y with Some Lt | Some Eq => true | _ => false end.

Definition neqb (x y : num) : bool :=
  match ncmp x y with Some Eq => true | _ => false end.

(** Two numbers denote the same value. *)
Inductive num_eq : num -> num -> Prop :=
| num_eq_Fin (a b : Q) : a == b -> num_eq (Fin a) (Fin b)
| num_eq_PInf : num_eq PInf PInf
| num_eq_NInf : num_eq NInf NInf
| num_eq_NaN : num_eq NaN NaN.

(** The integer [z] as a number. *)
Definition of_Z (z : Z) : num := Fin (inject_Z z).

(** *** [Number.prototype.toFixed(1)] *)

(** The outcome of [toFixed]: the characters produced, or, for a magnitude
    of [10^21] and more, the result of [Number::toString], whose digits
    are those of the binary64 value and are not rendered here. *)
Inductive FixedString : Type :=
| Str (s : string)
| NumberToString (x : Q).

Definition digits_of_Z (n : Z) : string :=
  NilZero.string_of_uint (N.to_uint (Z.to_N n)).

(** The decimal digits of [n] with one fractional digit: [n = 431] gives
    ["43.1"], [n = 7] gives ["0.7"]. *)
Definition one_decimal (n : Z) : string :=
  (digits_of_Z (n / 10) ++ "." ++ digits_of_Z (n mod 10))%string.

Definition toFixed1 (x : num) : FixedString :=
  match x with
  | NaN => Str "NaN"
  | PInf => Str "Infinity"
  | NInf => Str "-Infinity"
  | Fin q =>
      let neg := negb (Qle_bool 0 q) in
      let a := if neg then - q else q in
      if Qle_bool (inject_Z (10 ^ 21)) a then NumberToString q
      else
        let n := Qfloor (a * 10 + (1 # 2)) in
        Str ((if neg then "-" else "") ++ one_decimal n)%string
  end.

End JS.
Export JS.

Declare Scope num_scope.
Delimit Scope num_scope with num.
Infix "=n=" := num_eq (at level 70, no associativity) : num_scope.

(* ------------------------------------------------------------------ *)
(** ** The component's state and constants *)
(* ------------------------------------------------------------------ *)

Inductive ScenarioKey : Type := downside | base | upside.

(** The nine [useState] cells read by the engine. *)
Record Inputs : Type := mkInputs {
  bessSize : Q;
  capexPerKwh : Q;
  revenueScenario : ScenarioKey;
  discountRate : Q;
  debtRatio : Q;
  interestRate : Q;
  loanTenor : Z;
  includeAggregatorFee : bool;
  aggregatorFeePercent : Q
}.

Definition PROJECT_LIFE : Z := 12.
Definition OM_COST_RATE : Q := 15 # 1000.
Definition DEGRADATION_RATE : Q := 2 # 100.
Definition POWER_TO_ENERGY : Q := 1 # 2.
Definition DISCHARGE_EFF : Q := 96 # 100.

Definition REVENUE_PER_KW (s : ScenarioKey) : Q :=
  match s with
  | downside => 24557 # 100
  | base => 35977 # 100
  | upside => 61547 # 100
  end.

(** The initial state of the component. *)
Definition default_inputs : Inputs :=
  {| bessSize := 250; capexPerKwh := 350; revenueScenario := base;
     discountRate := 8 # 100; debtRatio := 0; interestRate := 8 # 100;
     loanTenor := 7; includeAggregatorFee := false;
     aggregatorFeePercent := 22 |}.

(* ------------------------------------------------------------------ *)
(** ** The engine *)
(* ------------------------------------------------------------------ *)

(** One row of the cash-flow table, as pushed on [flows] (lines 148-157). *)
Record CashFlowYear : Type := mkYear {
  year : Z;
  revenue : num;
  aggregatorFee : num;
  opex : num;
  ebitda : num;
  debtService : num;
  netCashFlow : num;
  cumulativeCashFlow : num
}.

(** The level annual payment of the loan (lines 121-126 and 217-222). *)
Definition annual_debt_payment (debt interestRate : num) (loanTenor : Z)
  : num :=
  if ngtb debt (Fin 0) && ngtb (of_Z loanTenor) (Fin 0) then
    if neqb interestRate (Fin 0) then ndiv debt (of_Z loanTenor)
    else
      ndiv
        (nmul (nmul debt interestRate)
              (npow (nadd (Fin 1) interestRate) loanTenor))
        (nsub (npow (nadd (Fin 1) interestRate) loanTenor) (Fin 1))
  else Fin 0.

(** The constants computed before the year loop (lines 109-126; lines
    203-222 are the same text with [cpx] for [capexPerKwh]). *)
Record Derived : Type := mkDerived {
  d_feeRate : num;
  d_powerKw : num;
  d_totalCapex : num;
  d_annualOm : num;
  d_grossRevenue : num;
  d_feeAnnual : num;
  d_netRevenue : num;
  d_debt : num;
  d_equity : num;
  d_annualDebtPmt : num
}.

Definition derive (p : Inputs) (cpx : Q) : Derived :=
  let feeRate :=
    if includeAggregatorFee p
    then ndiv (Fin (aggregatorFeePercent p)) (Fin 100)
    else Fin 0 in
  let powerKw := nmul (Fin (bessSize p)) (Fin POWER_TO_ENERGY) in
  let totalCapex := nmul (Fin (bessSize p)) (Fin cpx) in
  let annualOm := nmul totalCapex (Fin OM_COST_RATE) in
  let grossRevenue :=
    nmul (nmul powerKw (Fin (REVENUE_PER_KW (revenueScenario p))))
         (Fin DISCHARGE_EFF) in
  let feeAnnual := nmul grossRevenue feeRate in
  let netRevenue := nsub grossRevenue feeAnnual in
  let debt := nmul totalCapex (Fin (debtRatio p)) in
  let equity := nsub totalCapex debt in
  let annualDebtPmt :=
    annual_debt_payment debt (Fin (interestRate p)) (loanTenor p) in
  mkDerived feeRate powerKw totalCapex annualOm grossRevenue feeAnnual
            netRevenue debt equity annualDebtPmt.

(** The unrounded figures of year [yr] (lines 134-143; lines 227-236 are
    the same text). *)
Record YearFlow : Type := mkYearFlow {
  y_rev : num;
  y_fee : num;
  y_opex : num;
  y_ebitda : num;
  y_debtSvc : num;
  y_netCF : num
}.

Definition year_flow (d : Derived) (tenor : Z) (yr : Z) : YearFlow :=
  let degFactor :=
    if (yr =? 0)%Z then Fin 0
    else npow (nsub (Fin 1) (Fin DEGRADATION_RATE)) (yr - 1) in
  let gRev :=
    if (yr =? 0)%Z then Fin 0 else nmul (d_grossRevenue d) degFactor in
  let fee := if (yr =? 0)%Z then Fin 0 else nmul gRev (d_feeRate d) in
  let rev := if (yr =? 0)%Z then Fin 0 else nsub gRev fee in
  let opex := if (yr =? 0)%Z then Fin 0 else d_annualOm d in
  let debtSvc :=
    if (0 <? yr)%Z && (yr <=? tenor)%Z then d_annualDebtPmt d else Fin 0 in
  let ebitda := nsub rev opex in
  let cashEq := nsub ebitda debtSvc in
  let initialInv := if (yr =? 0)%Z then nneg (d_equity d) else Fin 0 in
  let netCF := nadd cashEq initialInv in
  mkYearFlow rev fee opex ebitda debtSvc netCF.

(** The years visited by [for (let yr = 0; yr <= PROJECT_LIFE; yr++)]. *)
Definition year_range : list Z :=
  map Z.of_nat (seq 0 (S (Z.to_nat PROJECT_LIFE))).

(** The variables the projection loop of [calc] updates. *)
Record LoopState : Type := mkLoop {
  l_flows : list CashFlowYear;
  l_cumulative : num;
  l_npv : num
}.

(** One iteration of the projection loop (lines 134-157). *)
Definition project_step (d : Derived) (tenor : Z) (rate : Q)
  (st : LoopState) (yr : Z) : LoopState :=
  let y := year_flow d tenor yr in
  let cumulative := nadd (l_cumulative st) (y_netCF y) in
  let disc := npow (nadd (Fin 1) (Fin rate)) (- yr) in
  let npv := nadd (l_npv st) (nmul (y_netCF y) disc) in
  mkLoop
    (l_flows st ++
       [mkYear yr (nround (y_rev y)) (nround (y_fee y)) (nround (y_opex y))
               (nround (y_ebitda y)) (nround (y_debtSvc y))
               (nround (y_netCF y)) (nround cumulative)])
    cumulative npv.

(** The projection loop from its initial state (lines 129-158). *)
Definition project_loop (d : Derived) (tenor : Z) (rate : Q) : LoopState :=
  fold_left (project_step d tenor rate) year_range
            (mkLoop [] (Fin 0) (nneg (d_equity d))).

(** *** [calcIRR] (lines 268-282) *)

(** [cashFlows.reduce((acc, cf, idx) => acc + cf / Math.pow(1 + irr, idx), 0)],
    the index starting at [idx]. *)
Fixpoint irr_npv_from (irr : num) (idx : Z) (acc : num) (cashFlows : list num)
  : num :=
  match cashFlows with
  | [] => acc
  | cf :: rest =>
      irr_npv_from irr (idx + 1)
        (nadd acc (ndiv cf (npow (nadd (Fin 1) irr) idx))) rest
  end.

Definition irr_npv (irr : num) (cashFlows : list num) : num :=
  irr_npv_from irr 0 (Fin 0) cashFlows.

(** The solver's loop with [iters] iterations left. *)
Fixpoint calcIRR_loop (iters : nat) (cashFlows : list num) (irr step : num)
  : num :=
  match iters with
  | O => irr
  | S k =>
      let npv := irr_npv irr cashFlows in
      if nltb (nabs npv) (Fin (1 # 100)) then irr
      else if ngtb npv (Fin 0)
           then calcIRR_loop k cashFlows (nadd irr step) step
           else calcIRR_loop k cashFlows (nsub irr step) (ndiv step (Fin 2))
  end.

Definition calcIRR (cashFlows : list num) : num :=
  calcIRR_loop 100 cashFlows (Fin (1 # 10)) (Fin (1 # 10)).

(** *** Payback of [calc] (lines 162-170) *)

(** The scan from index [i], [prevRow] being [flows[i - 1]] and [rest] the
    rows from [flows[i]] on. *)
Fixpoint payback_scan (i : Z) (prevRow : CashFlowYear)
  (rest : list CashFlowYear) : num :=
  match rest with
  | [] => of_Z PROJECT_LIFE
  | f :: rest' =>
      if ngtb (cumulativeCashFlow f) (Fin 0) then
        let prev := cumulativeCashFlow prevRow in
        let frac := ndiv (nneg prev) (netCashFlow f) in
        nadd (nsub (of_Z i) (Fin 1)) frac
      else payback_scan (i + 1) f rest'
  end.

Definition payback_of_table (flows : list CashFlowYear) : num :=
  match flows with
  | [] => of_Z PROJECT_LIFE
  | f0 :: rest => payback_scan 1 f0 rest
  end.

(** *** [calc] (lines 108-198) *)

Record CalcResult : Type := mkCalc {
  powerKw : num;
  totalCapex : num;
  equity : num;
  debt : num;
  annualOm : num;
  grossRevenue : num;
  feeAnnual : num;
  netRevenue : num;
  annualDebtPmt : num;
  flows : list CashFlowYear;
  npv : num;
  irr : num;
  payback : num;
  ebitdaMarginYear1 : FixedString
}.

Definition calc (p : Inputs) : CalcResult :=
  let d := derive p (capexPerKwh p) in
  let st := project_loop d (loanTenor p) (discountRate p) in
  let flows := l_flows st in
  let irr := calcIRR (map netCashFlow flows) in
  let payback := payback_of_table flows in
  mkCalc (d_powerKw d) (d_totalCapex d) (d_equity d) (d_debt d)
         (d_annualOm d) (d_grossRevenue d) (d_feeAnnual d) (d_netRevenue d)
         (d_annualDebtPmt d) flows (l_npv st) irr payback
         (toFixed1
            (nmul (ndiv (nsub (d_netRevenue d) (d_annualOm d))
                        (d_netRevenue d))
                  (Fin 100))).

(** *** [sensitivityData] (lines 201-265) *)

Record SensitivityPoint : Type := mkPoint {
  sp_capex : Q;
  sp_payback : num;
  sp_irr : num
}.

Definition CAPEX_VALUES : list Q := [300; 325; 350; 375; 400].

(** The cash-flow vector of one point (lines 225-237). *)
Definition sens_flows (d : Derived) (tenor : Z) : list num :=
  map (fun yr => y_netCF (year_flow d tenor yr)) year_range.

(** The payback loop of one point (lines 243-253), from index [i] with
    [cumulative] the sum of the entries before it. *)
Fixpoint sens_payback_loop (i : Z) (cumulative : num) (flows : list num)
  : num :=
  match flows with
  | [] => of_Z PROJECT_LIFE
  | f :: rest =>
      let cumulative := nadd cumulative f in
      if (0 <? i)%Z && ngtb cumulative (Fin 0) then
        let prevCum := nsub cumulative f in
        let frac := ndiv (nneg prevCum) f in
        nadd (nsub (of_Z i) (Fin 1)) frac
      else sens_payback_loop (i + 1) cumulative rest
  end.

Definition sens_point (p : Inputs) (cpx : Q) : SensitivityPoint :=
  let d := derive p cpx in
  let flows := sens_flows d (loanTenor p) in
  let irr := nmul (calcIRR flows) (Fin 100) in
  let payback := sens_payback_loop 0 (Fin 0) flows in
  mkPoint cpx payback irr.

Definition sensitivityData (p : Inputs) : list SensitivityPoint :=
  map (sens_point p) CAPEX_VALUES.

(* ------------------------------------------------------------------ *)
(** ** Reference definitions *)
(* ------------------------------------------------------------------ *)

(** The definitions of this part follow the words of the specification;
    the theorems compare them with the engine. *)

(** The unrounded net cash flow of year [yr] for the inputs [p]. *)
Definition net_cash_flow (p : Inputs) (yr : Z) : num :=
  y_netCF (year_flow (derive p (capexPerKwh p)) (loanTenor p) yr).

(** Net present value: the sum over [yr = 0 .. PROJECT_LIFE] of
    [netCashFlow[yr] * (1 + discountRate)^(-yr)]. *)
Definition discounted_sum (p : Inputs) : num :=
  fold_left
    (fun acc yr =>
       nadd acc (nmul (net_cash_flow p yr)
                      (npow (nadd (Fin 1) (Fin (discountRate p))) (- yr))))
    year_range (Fin 0).

(** The table before display rounding: the rows of [calc] without
    [Math.round], the cumulative column being the running sum of the
    unrounded net cash flows, [cumulative] on entry. *)
Fixpoint unrounded_rows (d : Derived) (tenor : Z) (cumulative : num)
  (yrs : list Z) : list CashFlowYear :=
  match yrs with
  | [] => []
  | yr :: rest =>
      let y := year_flow d tenor yr in
      let c := nadd cumulative (y_netCF y) in
      mkYear yr (y_rev y) (y_fee y) (y_opex y) (y_ebitda y) (y_debtSvc y)
             (y_netCF y) c
      :: unrounded_rows d tenor c rest
  end.

Definition unrounded_table (p : Inputs) : list CashFlowYear :=
  unrounded_rows (derive p (capexPerKwh p)) (loanTenor p) (Fin 0) year_range.

(** IRR and payback when the solver and the scan are given the unrounded
    sequences. *)
Definition irr_unrounded (p : Inputs) : num :=
  calcIRR (map netCashFlow (unrounded_table p)).

Definition payback_unrounded (p : Inputs) : num :=
  payback_of_table (unrounded_table p).

(* ------------------------------------------------------------------ *)
(** ** Rational closed forms *)
(* ------------------------------------------------------------------ *)

(** The quantities of the engine as rational expressions of the inputs.
    The engine computes them whenever the interest rate is not negative
    (lemmas [derive_values] and [year_flow_netCF] below). *)

Definition q_feeRate (p : Inputs) : Q :=
  if includeAggregatorFee p then aggregatorFeePercent p / 100 else 0.

Definition q_grossRevenue (p : Inputs) : Q :=
  bessSize p * POWER_TO_ENERGY * REVENUE_PER_KW (revenueScenario p)
  * DISCHARGE_EFF.

Definition q_netRevenue (p : Inputs) : Q :=
  q_grossRevenue p - q_grossRevenue p * q_feeRate p.

Definition q_totalCapex (p : Inputs) (cpx : Q) : Q := bessSize p * cpx.

Definition q_annualOm (p : Inputs) (cpx : Q) : Q :=
  q_totalCapex p cpx * OM_COST_RATE.

Definition q_debt (p : Inputs) (cpx : Q) : Q :=
  q_totalCapex p cpx * debtRatio p.

Definition q_equity (p : Inputs) (cpx : Q) : Q :=
  q_totalCapex p cpx - q_debt p cpx.

Definition q_payment (debt rate : Q) (tenor : Z) : Q :=
  if negb (Qle_bool debt 0) && (0 <? tenor)%Z then
    if Qeq_bool rate 0 then debt / inject_Z tenor
    else debt * rate * (1 + rate) ^ tenor / ((1 + rate) ^ tenor - 1)
  else 0.

Definition q_annualDebtPmt (p : Inputs) (cpx : Q) : Q :=
  q_payment (q_debt p cpx) (interestRate p) (loanTenor p).

Definition q_debtSvc (p : Inputs) (cpx : Q) (yr : Z) : Q :=
  if (0 <? yr)%Z && (yr <=? loanTenor p)%Z then q_annualDebtPmt p cpx
  else 0.

Definition q_netCF (p : Inputs) (cpx : Q) (yr : Z) : Q :=
  if (yr =? 0)%Z then - q_equity p cpx
  else
    q_grossRevenue p * (1 - DEGRADATION_RATE) ^ (yr - 1) * (1 - q_feeRate p)
    - q_annualOm p cpx - q_debtSvc p cpx yr.

(** The rows pushed by the projection loop over the years [yrs], the
    running total being [cumulative] on entry (lemma [project_loop_flows]
    below). *)
Fixpoint table_rows (d : Derived) (tenor : Z) (cumulative : num)
  (yrs : list Z) : list CashFlowYear :=
  match yrs with
  | [] => []
  | yr :: rest =>
      let y := year_flow d tenor yr in
      let c := nadd cumulative (y_netCF y) in
      mkYear yr (nround (y_rev y)) (nround (y_fee y)) (nround (y_opex y))
             (nround (y_ebitda y)) (nround (y_debtSvc y))
             (nround (y_netCF y)) (nround c)
      :: table_rows d tenor c rest
  end.

(** Every numeric field of a row is a finite number. *)
Definition row_finite (f : CashFlowYear) : Prop :=
  is_finite (revenue f) = true /\ is_finite (aggregatorFee f) = true /\
  is_finite (opex f) = true /\ is_finite (ebitda f) = true /\
  is_finite (debtService f) = true /\ is_finite (netCashFlow f) = true /\
  is_finite (cumulativeCashFlow f) = true.

(** The constants used by the year loop are finite numbers. *)
Definition derived_finite (d : Derived) : Prop :=
  is_finite (d_feeRate d) = true /\ is_finite (d_grossRevenue d) = true /\
  is_finite (d_annualOm d) = true /\ is_finite (d_equity d) = true /\
  is_finite (d_annualDebtPmt d) = true.

(** The input ranges within which the finiteness of the outputs is
    stated: capacity and capex per kWh between 0 and [10^6], a debt ratio
    between 0 and 1, an interest rate that is 0 or between 0.0001 and 1, a
    loan tenor of 0 to 100 years, a discount rate that is not negative and,
    when the fee is enabled, a fee between 0 and 100 percent. *)
Definition inputs_in_range (p : Inputs) : Prop :=
  0 <= bessSize p <= 1000000 /\
  0 <= capexPerKwh p <= 1000000 /\
  0 <= debtRatio p <= 1 /\
  (interestRate p == 0 \/ 1 # 10000 <= interestRate p <= 1) /\
  (0 <= loanTenor p <= 100)%Z /\
  0 <= discountRate p /\
  (includeAggregatorFee p = true -> 0 <= aggregatorFeePercent p <= 100).

(** Every numeric field of a row is 0. *)
Definition row_zero (f : CashFlowYear) : Prop :=
  (revenue f =n= Fin 0 /\ aggregatorFee f =n= Fin 0 /\ opex f =n= Fin 0 /\
   ebitda f =n= Fin 0 /\ debtService f =n= Fin 0 /\
   netCashFlow f =n= Fin 0 /\ cumulativeCashFlow f =n= Fin 0)%num.



Definition loan_inputs : Inputs :=
  {| bessSize := 250; capexPerKwh := 350; revenueScenario := base;
     discountRate := 8 # 100; debtRatio := 1 # 2; interestRate := 8 # 100;
     loanTenor := 7; includeAggregatorFee := false;
     aggregatorFeePercent := 22 |}.

Definition zero_capacity_inputs : Inputs :=
  {| bessSize := 0; capexPerKwh := 350; revenueScenario := base;
     discountRate := 8 # 100; debtRatio := 0; interestRate := 8 # 100;
     loanTenor := 7; includeAggregatorFee := false;
     aggregatorFeePercent := 22 |}.

(* ------------------------------------------------------------------ *)
(** ** The CSV export *)
(* ------------------------------------------------------------------ *)

(** [exportToCSV] (lines 285-294) builds the text of the file from the
    table of [calc]; the text is what is modelled, not the download. *)

(** [Array.prototype.join] on strings. *)
Fixpoint join (sep : string) (l : list string) : string :=
  match l with
  | [] => EmptyString
  | s :: rest =>
      match rest with
      | [] => s
      | _ :: _ => (s ++ sep ++ join sep rest)%string
      end
  end.

(** The integer denoted by [q] when [q] is a safe integer, one of
    magnitude at most [2^53 - 1]. *)
Definition safe_integer (q : Q) : option Z :=
  let r := Qred q in
  if (Qden r =? 1)%positive && (Z.abs (Qnum r) <=? 2 ^ 53 - 1)%Z
  then Some (Qnum r) else None.

(** [Number::toString], as applied by [join] to a number: a safe integer
    is printed in decimal.  Other finite numbers are printed from the
    digits of the binary64 value and have no text here ([None]). *)
Definition Number_toString (x : num) : option string :=
  match x with
  | NaN => Some "NaN"%string
  | PInf => Some "Infinity"%string
  | NInf => Some "-Infinity"%string
  | Fin q =>
      option_map (fun z => NilZero.string_of_int (Z.to_int z))
                 (safe_integer q)
  end.

(** The list of the values when every element has one. *)
Fixpoint all_some {A : Type} (l : list (option A)) : option (list A) :=
  match l with
  | [] => Some []
  | None :: _ => None
  | Some a :: rest => option_map (cons a) (all_some rest)
  end.

Definition csv_headers : list string :=
  ["Year"; "Revenue"; "Aggregator Fee"; "OPEX"; "EBITDA"; "Debt Service";
   "Net Cash Flow"; "Cumulative"]%string.

(** The eight numbers of a row, in the order of the headers. *)
Definition csv_cells (f : CashFlowYear) : list num :=
  [of_Z (year f); revenue f; aggregatorFee f; opex f; ebitda f;
   debtService f; netCashFlow f; cumulativeCashFlow f].

Definition csv_row (f : CashFlowYear) : option string :=
  option_map (join ",") (all_some (map Number_toString (csv_cells f))).

Definition newline : string := String (ascii_of_nat 10) EmptyString.

(** The text given to the [Blob]. *)
Definition csv_text (flows : list CashFlowYear) : option string :=
  option_map (fun rows => join newline ([join "," csv_headers] ++ rows))
             (all_some (map csv_row flows)).

Definition exportToCSV (p : Inputs) : option string :=
  csv_text (flows (calc p)).

(** *** A reader of the exported text *)

(** The pieces of [s] between the occurrences of the character [c]. *)
Fixpoint split_at (c : ascii) (s : string) : list string :=
  match s with
  | EmptyString => [EmptyString]
  | String a s' =>
      if Ascii.eqb a c then EmptyString :: split_at c s'
      else
        match split_at c s' with
        | [] => [String a EmptyString]
        | h :: t => String a h :: t
        end
  end.

(** The lines of a text, each cut at its commas. *)
Definition parse_csv (text : string) : list (list string) :=
  map (split_at ",") (split_at (ascii_of_nat 10) text).

(** The number a cell spells. *)
Definition parse_number (s : string) : option num :=
  match NilZero.int_of_string s with
  | Some d => Some (of_Z (Z.of_int d))
  | None =>
      if String.eqb s "NaN" then Some NaN
      else if String.eqb s "Infinity" then Some PInf
      else if String.eqb s "-Infinity" then Some NInf
      else None
  end.

(** The character [c] does not occur in [s]. *)
Fixpoint free_of (c : ascii) (s : string) : bool :=
  match s with
  | EmptyString => true
  | String a s' => negb (Ascii.eqb a c) && free_of c s'
  end.

(* ------------------------------------------------------------------ *)
(** ** Facts about the number model *)
(* ------------------------------------------------------------------ *)

Local Open Scope num_scope.

(** Unfolds the operations on numbers without touching the rationals. *)
Ltac nsimpl :=
  cbn [nneg nadd nsub nmul ndiv nabs nround is_finite ncmp] in *.

#[export] Hint Constructors num_eq : core.

Lemma Fin_eq (a b : Q) : Fin a =n= Fin b <-> a == b.
Proof. split; [now inversion 1 | now constructor]. Qed.

Lemma num_eq_refl (x : num) : x =n= x.
Proof. destruct x; constructor. reflexivity. Qed.

Lemma num_eq_sym (x y : num) : x =n= y -> y =n= x.
Proof. destruct 1; constructor. now symmetry. Qed.

Lemma num_eq_trans (x y z : num) : x =n= y -> y =n= z -> x =n= z.
Proof.
  destruct 1; inversion 1; subst; constructor.
  etransitivity; eassumption.
Qed.

#[export] Instance num_eq_Equivalence : Equivalence num_eq.
Proof.
  split.
  - exact num_eq_refl.
  - exact num_eq_sym.
  - exact num_eq_trans.
Qed.

Lemma eq_num_eq (x y : num) : x = y -> x =n= y.
Proof. intros ->. reflexivity. Qed.

Lemma inf_of_sign_comp (a b : Q) : a == b -> inf_of_sign a = inf_of_sign b.
Proof. intros H. unfold inf_of_sign. now rewrite H. Qed.

#[export] Instance nneg_Proper : Proper (num_eq ==> num_eq) nneg.
Proof.
  intros x y []; nsimpl; constructor.
  now rewrite !Qred_correct, H.
Qed.

#[export] Instance nadd_Proper : Proper (num_eq ==> num_eq ==> num_eq) nadd.
Proof.
  intros x y [] z t []; nsimpl; constructor.
  now rewrite !Qred_correct, H, H0.
Qed.

#[export] Instance nsub_Proper : Proper (num_eq ==> num_eq ==> num_eq) nsub.
Proof. intros a b H c d H'. unfold nsub. now rewrite H, H'. Qed.

#[export] Instance nmul_Proper : Proper (num_eq ==> num_eq ==> num_eq) nmul.
Proof.
  intros x y [] z t []; nsimpl; try constructor;
    try (apply eq_num_eq, inf_of_sign_comp; now rewrite ?H, ?H0).
  now rewrite !Qred_correct, H, H0.
Qed.

Lemma Qeq_bool_comp (a b c d : Q) :
  a == b -> c == d -> Qeq_bool a c = Qeq_bool b d.
Proof.
  intros H H'.
  destruct (Qeq_bool a c) eqn:E, (Qeq_bool b d) eqn:E'; auto.
  - apply Qeq_bool_iff in E. rewrite H, H' in E.
    apply Qeq_bool_iff in E. congruence.
  - apply Qeq_bool_iff in E'. rewrite <- H, <- H' in E'.
    apply Qeq_bool_iff in E'. congruence.
Qed.

Lemma Qle_bool_comp (a b c d : Q) :
  a == b -> c == d -> Qle_bool a c = Qle_bool b d.
Proof.
  intros H H'.
  destruct (Qle_bool a c) eqn:E, (Qle_bool b d) eqn:E'; auto.
  - apply Qle_bool_iff in E. rewrite H, H' in E.
    apply Qle_bool_iff in E. congruence.
  - apply Qle_bool_iff in E'. rewrite <- H, <- H' in E'.
    apply Qle_bool_iff in E'. congruence.
Qed.

#[export] Instance ndiv_Proper : Proper (num_eq ==> num_eq ==> num_eq) ndiv.
Proof.
  intros x y [] z t []; nsimpl; try constructor; try reflexivity.
  - rewrite (Qeq_bool_comp a0 b0 0 0 H0 (Qeq_refl 0)).
    destruct (Qeq_bool b0 0).
    + apply eq_num_eq, inf_of_sign_comp, H.
    + constructor. now rewrite !Qred_correct, H, H0.
  - rewrite (Qle_bool_comp 0 0 a b (Qeq_refl 0) H).
    now destruct (Qle_bool 0 b).
  - rewrite (Qle_bool_comp 0 0 a b (Qeq_refl 0) H).
    now destruct (Qle_bool 0 b).
Qed.

Lemma ncmp_comp (a b c d : num) :
  a =n= b -> c =n= d -> ncmp a c = ncmp b d.
Proof.
  intros [] []; nsimpl; try reflexivity.
  now rewrite H, H0.
Qed.

#[export] Instance ngtb_Proper : Proper (num_eq ==> num_eq ==> eq) ngtb.
Proof. intros a b H c d H'. unfold ngtb. now rewrite (ncmp_comp a b c d). Qed.

#[export] Instance nltb_Proper : Proper (num_eq ==> num_eq ==> eq) nltb.
Proof. intros a b H c d H'. unfold nltb. now rewrite (ncmp_comp a b c d). Qed.

#[export] Instance nleb_Proper : Proper (num_eq ==> num_eq ==> eq) nleb.
Proof. intros a b H c d H'. unfold nleb. now rewrite (ncmp_comp a b c d). Qed.

#[export] Instance neqb_Proper : Proper (num_eq ==> num_eq ==> eq) neqb.
Proof. intros a b H c d H'. unfold neqb. now rewrite (ncmp_comp a b c d). Qed.

#[export] Instance nabs_Proper : Proper (num_eq ==> num_eq) nabs.
Proof. intros x y []; nsimpl; constructor. now rewrite H. Qed.

#[export] Instance nround_Proper : Proper (num_eq ==> num_eq) nround.
Proof. intros x y []; nsimpl; constructor. now rewrite H. Qed.

#[export] Instance npow_Proper : Proper (num_eq ==> eq ==> num_eq) npow.
Proof.
  intros x y [] n m <-; unfold npow; destruct (n =? 0)%Z; try reflexivity.
  rewrite (Qeq_bool_comp a b 0 0 H (Qeq_refl 0)).
  destruct ((n <? 0)%Z && Qeq_bool b 0); constructor.
  now rewrite !Qred_correct, H.
Qed.

#[export] Instance is_finite_Proper : Proper (num_eq ==> eq) is_finite.
Proof. intros x y []; reflexivity. Qed.

(** Comparisons of finite numbers are the comparisons of rationals. *)
Lemma ngtb_Fin (a b : Q) : ngtb (Fin a) (Fin b) = true <-> b < a.
Proof.
  unfold ngtb; nsimpl. rewrite Qgt_alt.
  destruct (a ?= b); split; congruence.
Qed.

Lemma ngtb_Fin_false (a b : Q) : ngtb (Fin a) (Fin b) = false <-> a <= b.
Proof.
  unfold ngtb; nsimpl. rewrite Qle_alt.
  destruct (a ?= b); split; congruence.
Qed.


Lemma nleb_Fin (a b : Q) : nleb (Fin a) (Fin b) = true <-> a <= b.
Proof.
  unfold nleb; simpl. rewrite Qle_alt.
  destruct (a ?= b); split; congruence.
Qed.

Lemma neqb_Fin (a b : Q) : neqb (Fin a) (Fin b) = true <-> a == b.
Proof.
  unfold neqb; nsimpl. rewrite Qeq_alt.
  destruct (a ?= b); split; congruence.
Qed.

Lemma neqb_Fin_false (a b : Q) : neqb (Fin a) (Fin b) = false <-> ~ a == b.
Proof.
  rewrite <- neqb_Fin. destruct (neqb (Fin a) (Fin b)); split; congruence.
Qed.

(** Division by a non-zero finite number is the division of rationals. *)
Lemma ndiv_Fin (a b : Q) : ~ b == 0 -> ndiv (Fin a) (Fin b) =n= Fin (a / b).
Proof.
  intros H. nsimpl.
  destruct (Qeq_bool b 0) eqn:E.
  - apply Qeq_bool_iff in E. contradiction.
  - constructor. apply Qred_correct.
Qed.

Lemma nadd_Fin (a b : Q) : nadd (Fin a) (Fin b) =n= Fin (a + b).
Proof. constructor. apply Qred_correct. Qed.

Lemma nsub_Fin (a b : Q) : nsub (Fin a) (Fin b) =n= Fin (a - b).
Proof. constructor. rewrite !Qred_correct. reflexivity. Qed.

Lemma nmul_Fin (a b : Q) : nmul (Fin a) (Fin b) =n= Fin (a * b).
Proof. constructor. apply Qred_correct. Qed.

Lemma nneg_Fin (a : Q) : nneg (Fin a) =n= Fin (- a).
Proof. constructor. apply Qred_correct. Qed.

(** A power of a non-zero finite base is the power of rationals. *)
Lemma npow_Fin (a : Q) (n : Z) : ~ a == 0 -> npow (Fin a) n =n= Fin (a ^ n).
Proof.
  intros H. unfold npow.
  destruct (n =? 0)%Z eqn:E.
  - apply Z.eqb_eq in E. subst n. reflexivity.
  - destruct (Qeq_bool a 0) eqn:E'.
    + apply Qeq_bool_iff in E'. contradiction.
    + rewrite andb_false_r. constructor. apply Qred_correct.
Qed.

Lemma npow_Fin_nonneg (a : Q) (n : Z) :
  (0 <= n)%Z -> npow (Fin a) n =n= Fin (a ^ n).
Proof.
  intros H. unfold npow.
  destruct (n =? 0)%Z eqn:E.
  - apply Z.eqb_eq in E. subst n. reflexivity.
  - replace (n <? 0)%Z with false by (symmetry; apply Z.ltb_ge; lia).
    constructor. apply Qred_correct.
Qed.

(** Addition of numbers is associative and has [0] as left unit, special
    values included. *)
Lemma nadd_assoc (x y z : num) : nadd x (nadd y z) =n= nadd (nadd x y) z.
Proof.
  destruct x, y, z; nsimpl; constructor.
  rewrite !Qred_correct. ring.
Qed.

Lemma nadd_0_l (x : num) : nadd (Fin 0) x =n= x.
Proof. destruct x; nsimpl; constructor. rewrite Qred_correct. ring. Qed.

(* ------------------------------------------------------------------ *)
(** ** The IRR solver on a sequence of zeros *)
(* ------------------------------------------------------------------ *)

Lemma irr_npv_from_zeros (r : Q) (cashFlows : list num) :
  ~ 1 + r == 0 ->
  Forall (fun cf => cf =n= Fin 0) cashFlows ->
  forall (idx : Z) (acc : num),
    acc =n= Fin 0 -> irr_npv_from (Fin r) idx acc cashFlows =n= Fin 0.
Proof.
  intros Hr Hall. induction Hall as [|cf rest Hcf _ IH]; intros idx acc Hacc.
  - exact Hacc.
  - cbn [irr_npv_from]. apply IH.
    rewrite Hacc, Hcf, nadd_Fin, npow_Fin by (rewrite Qplus_0_l || exact Hr).
    rewrite ndiv_Fin by (apply Qpower_not_0; exact Hr).
    rewrite nadd_Fin. apply Fin_eq. unfold Qdiv. ring.
Qed.

(** One iteration of the solver's loop. *)
Lemma calcIRR_loop_S (k : nat) (cashFlows : list num) (irr step : num) :
  calcIRR_loop (S k) cashFlows irr step =
  if nltb (nabs (irr_npv irr cashFlows)) (Fin (1 # 100)) then irr
  else if ngtb (irr_npv irr cashFlows) (Fin 0)
       then calcIRR_loop k cashFlows (nadd irr step) step
       else calcIRR_loop k cashFlows (nsub irr step) (ndiv step (Fin 2)).
Proof. reflexivity. Qed.

(** On zeros the net present value at the first trial rate is 0. *)
Lemma irr_npv_zeros (cashFlows : list num) :
  Forall (fun cf => cf =n= Fin 0) cashFlows ->
  irr_npv (Fin (1 # 10)) cashFlows =n= Fin 0.
Proof.
  intros Hall.
  apply irr_npv_from_zeros; [discriminate | exact Hall | reflexivity].
Qed.

(** The solver returns its initial rate when the first trial is within
    the tolerance. *)
Lemma calcIRR_first_trial (cashFlows : list num) :
  nltb (nabs (irr_npv (Fin (1 # 10)) cashFlows)) (Fin (1 # 100)) = true ->
  calcIRR cashFlows = Fin (1 # 10).
Proof.
  intros H. unfold calcIRR. rewrite calcIRR_loop_S. now rewrite H.
Qed.

(** C10.  Applied to a net-cash-flow sequence made of zeros only, the IRR
    solver returns its initial trial rate, 0.1: the net present value at
    the first trial is 0, within the 0.01 tolerance, and the loop is left
    at once. *)
Theorem calcIRR_all_zero (cashFlows : list num) :
  Forall (fun cf => cf =n= Fin 0) cashFlows ->
  calcIRR cashFlows = Fin (1 # 10).
Proof.
  intros Hall. apply calcIRR_first_trial.
  rewrite (irr_npv_zeros cashFlows Hall). reflexivity.
Qed.

Lemma calcIRR_all_zero_witness :
  calcIRR (repeat (Fin 0) 13) = Fin (1 # 10).
Proof.
  apply (calcIRR_all_zero (repeat (Fin 0) 13)).
  repeat constructor.
Defined.

(* ------------------------------------------------------------------ *)
(** ** The annual debt payment *)
(* ------------------------------------------------------------------ *)

Lemma inject_Z_pos (z : Z) : (0 < z)%Z -> 0 < inject_Z z.
Proof. intros H. change 0 with (inject_Z 0). now rewrite <- Zlt_Qlt. Qed.

Lemma annuity_denominator_pos (rate : Q) (tenor : Z) :
  0 < rate -> (0 < tenor)%Z -> 0 < (1 + rate) ^ tenor - 1.
Proof.
  intros Hr Ht.
  assert (H : 1 < (1 + rate) ^ tenor) by (apply Qpower_1_lt; [lra | exact Ht]).
  lra.
Qed.

(** The payment in closed form, for a loan that exists. *)
Lemma annual_debt_payment_loan (principal rate : Q) (tenor : Z) :
  0 < principal -> 0 <= rate -> (0 < tenor)%Z ->
  annual_debt_payment (Fin principal) (Fin rate) tenor =n=
  Fin (if Qeq_bool rate 0 then principal / inject_Z tenor
       else principal * rate * (1 + rate) ^ tenor
            / ((1 + rate) ^ tenor - 1)).
Proof.
  intros Hp Hr Ht. unfold annual_debt_payment, of_Z.
  assert (Hz : 0 < inject_Z tenor) by now apply inject_Z_pos.
  replace (ngtb (Fin principal) (Fin 0)) with true
    by (symmetry; now apply ngtb_Fin).
  replace (ngtb (Fin (inject_Z tenor)) (Fin 0)) with true
    by (symmetry; now apply ngtb_Fin).
  cbn [andb].
  destruct (Qeq_bool rate 0) eqn:E.
  - apply Qeq_bool_iff in E.
    replace (neqb (Fin rate) (Fin 0)) with true
      by (symmetry; now apply neqb_Fin).
    apply ndiv_Fin. lra.
  - apply Qeq_bool_neq in E.
    replace (neqb (Fin rate) (Fin 0)) with false
      by (symmetry; now apply neqb_Fin_false).
    assert (Hd : 0 < (1 + rate) ^ tenor - 1)
      by (apply annuity_denominator_pos; [lra | exact Ht]).
    rewrite nadd_Fin, npow_Fin by lra.
    rewrite !nmul_Fin, nsub_Fin.
    apply ndiv_Fin. lra.
Qed.

(** C7.  For a principal, a rate and an integer tenor that are not
    negative, the annual debt payment is 0 when the principal or the tenor
    is 0, [principal / tenorYears] when the rate is 0, and the level
    payment [principal * rate * (1+rate)^tenor / ((1+rate)^tenor - 1)]
    otherwise. *)
Theorem annual_debt_payment_spec (principal rate : Q) (tenor : Z) :
  0 <= principal -> 0 <= rate -> (0 <= tenor)%Z ->
  (principal == 0 \/ tenor = 0%Z ->
   annual_debt_payment (Fin principal) (Fin rate) tenor = Fin 0) /\
  (0 < principal -> (0 < tenor)%Z -> rate == 0 ->
   annual_debt_payment (Fin principal) (Fin rate) tenor =n=
   Fin (principal / inject_Z tenor)) /\
  (0 < principal -> (0 < tenor)%Z -> 0 < rate ->
   annual_debt_payment (Fin principal) (Fin rate) tenor =n=
   Fin (principal * rate * (1 + rate) ^ tenor / ((1 + rate) ^ tenor - 1))).
Proof.
  intros Hp Hr Ht. repeat split.
  - intros [H | H]; unfold annual_debt_payment.
    + replace (ngtb (Fin principal) (Fin 0)) with false; [reflexivity|].
      symmetry. apply ngtb_Fin_false. lra.
    + subst tenor. now rewrite andb_false_r.
  - intros Hp' Ht' H0.
    rewrite annual_debt_payment_loan by assumption.
    apply Qeq_bool_iff in H0. now rewrite H0.
  - intros Hp' Ht' Hr'.
    rewrite annual_debt_payment_loan by assumption.
    destruct (Qeq_bool rate 0) eqn:E; [|reflexivity].
    apply Qeq_bool_iff in E. lra.
Qed.

Lemma annual_debt_payment_spec_witness :
  annual_debt_payment (Fin 0) (Fin (8 # 100)) 7 = Fin 0 /\
  annual_debt_payment (Fin 700) (Fin 0) 7 =n= Fin 100 /\
  annual_debt_payment (Fin 1000) (Fin 1) 2 =n= Fin (4000 # 3).
Proof.
  split; [|split].
  - apply (annual_debt_payment_spec 0 (8 # 100) 7); [lra | lra | lia |].
    left. reflexivity.
  - transitivity (Fin (700 / inject_Z 7)).
    + apply (annual_debt_payment_spec 700 0 7);
        [lra | lra | lia | lra | lia | reflexivity].
    + constructor. reflexivity.
  - transitivity (Fin (1000 * 1 * (1 + 1) ^ 2 / ((1 + 1) ^ 2 - 1))).
    + apply (annual_debt_payment_spec 1000 1 2);
        [lra | lra | lia | lra | lia | lra].
    + constructor. reflexivity.
Defined.

(* ------------------------------------------------------------------ *)
(** ** Net present value *)
(* ------------------------------------------------------------------ *)

(** The [npv] variable after the loop is the fold of the yearly terms from
    the loop's seed. *)
Lemma project_loop_npv (d : Derived) (tenor : Z) (rate : Q) (yrs : list Z) :
  forall st,
    l_npv (fold_left (project_step d tenor rate) yrs st) =
    fold_left
      (fun acc yr =>
         nadd acc (nmul (y_netCF (year_flow d tenor yr))
                        (npow (nadd (Fin 1) (Fin rate)) (- yr))))
      yrs (l_npv st).
Proof.
  induction yrs as [|yr yrs IH]; intros st; [reflexivity|].
  cbn [fold_left]. rewrite IH. reflexivity.
Qed.

(** A sum accumulated from the seed [s] is [s] plus the sum accumulated
    from 0. *)
Lemma fold_nadd_seed (term : Z -> num) (yrs : list Z) :
  forall s,
    fold_left (fun acc yr => nadd acc (term yr)) yrs s =n=
    nadd s (fold_left (fun acc yr => nadd acc (term yr)) yrs (Fin 0)).
Proof.
  induction yrs as [|yr yrs IH]; intros s; cbn [fold_left].
  - destruct s; nsimpl; constructor. rewrite Qred_correct. ring.
  - rewrite (IH (nadd s (term yr))), (IH (nadd (Fin 0) (term yr))).
    rewrite nadd_0_l. symmetry. apply nadd_assoc.
Qed.

(** X13.  For every input, the [npv] of [calc] is the sum of the discounted net
    cash flows, which already holds [-equity] as its year-0 term, plus the
    seed [-equity] of the accumulator: the equity outlay is counted
    twice. *)
Lemma calc_npv_seed_plus_sum (p : Inputs) :
  npv (calc p) =n= nadd (nneg (equity (calc p))) (discounted_sum p).
Proof.
  unfold calc, project_loop, discounted_sum, net_cash_flow.
  cbn [npv equity]. rewrite project_loop_npv. cbn [l_npv].
  apply fold_nadd_seed.
Qed.

(** C1, at the component's initial state (capacity 250, capex 350, base
    scenario, discount rate 0.08, no debt).  The equity is 87500 and the
    [npv] of [calc] is the sum of the discounted net cash flows less
    87500: it is not the net present value of the cash flows. *)
Theorem calc_npv_default_inputs :
  equity (calc default_inputs) =n= Fin 87500 /\
  npv (calc default_inputs) =n=
  nsub (discounted_sum default_inputs) (Fin 87500) /\
  ~ npv (calc default_inputs) =n= discounted_sum default_inputs.
Proof.
  split; [|split].
  - vm_compute. constructor. reflexivity.
  - vm_compute. constructor. reflexivity.
  - intros H. vm_compute in H. apply Fin_eq in H. discriminate H.
Qed.

(* ------------------------------------------------------------------ *)
(** ** Rounded figures in the IRR and the payback of [calc] *)
(* ------------------------------------------------------------------ *)

Lemma calc_irr_payback_default_inputs_values :
  irr (calc default_inputs) = Fin (1188979 # 2621440) /\
  irr_unrounded default_inputs = Fin (2377967 # 5242880) /\
  payback (calc default_inputs) = Fin (42472 # 20075) /\
  payback_unrounded default_inputs = Fin (5008502 # 2367351).
Proof. split; [|split; [|split]]; vm_compute; reflexivity. Qed.

(** C2, at the component's initial state.  [calc] gives the IRR solver and
    the payback scan the rounded columns of the table: its [irr] and its
    [payback] differ from those of the unrounded sequences. *)
Theorem calc_irr_payback_default_inputs :
  irr (calc default_inputs) =n= Fin (1188979 # 2621440) /\
  irr_unrounded default_inputs =n= Fin (2377967 # 5242880) /\
  payback (calc default_inputs) =n= Fin (42472 # 20075) /\
  payback_unrounded default_inputs =n= Fin (5008502 # 2367351) /\
  ~ irr (calc default_inputs) =n= irr_unrounded default_inputs /\
  ~ payback (calc default_inputs) =n= payback_unrounded default_inputs.
Proof.
  destruct calc_irr_payback_default_inputs_values as (Hi & Hu & Hp & Hq).
  rewrite Hi, Hu, Hp, Hq.
  repeat split; try reflexivity;
    intros H; apply Fin_eq in H; discriminate H.
Qed.

(* ------------------------------------------------------------------ *)
(** ** The sensitivity sweep against [calc] *)
(* ------------------------------------------------------------------ *)

(** C4, at the component's initial state, whose capex per kWh, 350, is the
    third swept value.  The point of the sweep for 350 carries the payback
    and the IRR of the unrounded sequences, not those of [calc]. *)
Theorem sensitivity_point_default_inputs :
  capexPerKwh default_inputs = 350%Q /\
  exists pt,
    nth_error (sensitivityData default_inputs) 2 = Some pt /\
    sp_capex pt = 350%Q /\
    sp_payback pt =n= payback_unrounded default_inputs /\
    sp_irr pt =n= nmul (irr_unrounded default_inputs) (Fin 100) /\
    ~ sp_payback pt =n= payback (calc default_inputs) /\
    ~ sp_irr pt =n= nmul (irr (calc default_inputs)) (Fin 100).
Proof.
  split; [reflexivity|].
  exists (sens_point default_inputs 350).
  split; [reflexivity|]. split; [reflexivity|].
  assert (Hs : sens_point default_inputs 350 =
               mkPoint 350 (Fin (5008502 # 2367351))
                       (Fin (11889835 # 262144)))
    by (vm_compute; reflexivity).
  destruct (calc_irr_payback_default_inputs_values) as (Hi & Hu & Hp & Hq).
  rewrite Hs, Hi, Hu, Hp, Hq. cbn [sp_payback sp_irr].
  repeat split; try (vm_compute; constructor; reflexivity);
    intros H; vm_compute in H; apply Fin_eq in H; discriminate H.
Qed.

(* ------------------------------------------------------------------ *)
(** ** The engine computes the closed forms *)
(* ------------------------------------------------------------------ *)

Lemma num_eq_Fin_inv (x : num) (q : Q) :
  x =n= Fin q -> exists a, x = Fin a /\ a == q.
Proof. inversion 1; subst. eauto. Qed.

Lemma Qle_bool_false (a b : Q) : Qle_bool a b = false <-> b < a.
Proof.
  destruct (Qle_bool a b) eqn:E.
  - apply Qle_bool_iff in E. split; [discriminate | intros H; lra].
  - split; [intros _ | reflexivity].
    apply Qnot_le_lt. intros H. apply Qle_bool_iff in H. congruence.
Qed.

Lemma annual_debt_payment_value (debt rate : Q) (tenor : Z) :
  0 <= rate ->
  annual_debt_payment (Fin debt) (Fin rate) tenor =n=
  Fin (q_payment debt rate tenor).
Proof.
  intros Hr. unfold q_payment.
  destruct (Qle_bool debt 0) eqn:Ed; cbn [negb andb].
  - apply Qle_bool_iff in Ed. unfold annual_debt_payment.
    replace (ngtb (Fin debt) (Fin 0)) with false; [reflexivity|].
    symmetry. now apply ngtb_Fin_false.
  - apply Qle_bool_false in Ed.
    destruct (0 <? tenor)%Z eqn:Et.
    + apply Z.ltb_lt in Et. now apply annual_debt_payment_loan.
    + apply Z.ltb_ge in Et. unfold annual_debt_payment, of_Z.
      replace (ngtb (Fin (inject_Z tenor)) (Fin 0)) with false.
      * now rewrite andb_false_r.
      * symmetry. apply ngtb_Fin_false.
        change 0 with (inject_Z 0). now rewrite <- Zle_Qle.
Qed.

#[export] Instance annual_debt_payment_Proper :
  Proper (num_eq ==> num_eq ==> eq ==> num_eq) annual_debt_payment.
Proof.
  intros d d' Hd r r' Hr t t' <-. unfold annual_debt_payment.
  rewrite (ngtb_Proper _ _ Hd _ _ (num_eq_refl (Fin 0))).
  rewrite (neqb_Proper _ _ Hr _ _ (num_eq_refl (Fin 0))).
  destruct (ngtb d' (Fin 0) && ngtb (of_Z t) (Fin 0)); [|reflexivity].
  destruct (neqb r' (Fin 0)); now rewrite ?Hd, ?Hr.
Qed.

(** The constants computed before the loop. *)
Lemma derive_values (p : Inputs) (cpx : Q) :
  0 <= interestRate p ->
  let d := derive p cpx in
  d_feeRate d =n= Fin (q_feeRate p) /\
  d_grossRevenue d =n= Fin (q_grossRevenue p) /\
  d_totalCapex d =n= Fin (q_totalCapex p cpx) /\
  d_annualOm d =n= Fin (q_annualOm p cpx) /\
  d_debt d =n= Fin (q_debt p cpx) /\
  d_equity d =n= Fin (q_equity p cpx) /\
  d_annualDebtPmt d =n= Fin (q_annualDebtPmt p cpx).
Proof.
  intros Hr d. subst d. unfold derive.
  cbn [d_feeRate d_grossRevenue d_totalCapex d_annualOm d_debt d_equity
       d_annualDebtPmt].
  repeat apply conj.
  - unfold q_feeRate. destruct (includeAggregatorFee p); [|reflexivity].
    apply ndiv_Fin. discriminate.
  - rewrite !nmul_Fin. reflexivity.
  - apply nmul_Fin.
  - rewrite !nmul_Fin. reflexivity.
  - rewrite !nmul_Fin. reflexivity.
  - rewrite !nmul_Fin, nsub_Fin. reflexivity.
  - rewrite !nmul_Fin. now apply annual_debt_payment_value.
Qed.

(** The unrounded net cash flow of a year. *)
Lemma year_flow_netCF (p : Inputs) (cpx : Q) (yr : Z) :
  0 <= interestRate p ->
  y_netCF (year_flow (derive p cpx) (loanTenor p) yr) =n=
  Fin (q_netCF p cpx yr).
Proof.
  intros Hr.
  destruct (derive_values p cpx Hr) as (Hf & Hg & _ & Ho & _ & He & Hp).
  unfold year_flow, q_netCF, q_debtSvc. cbn [y_netCF].
  destruct (yr =? 0)%Z eqn:E0.
  - apply Z.eqb_eq in E0. subst yr. cbn [Z.ltb Z.compare andb].
    rewrite He, !nsub_Fin, nneg_Fin, nadd_Fin. constructor. ring.
  - rewrite nsub_Fin, npow_Fin by discriminate.
    destruct ((0 <? yr)%Z && (yr <=? loanTenor p)%Z);
      rewrite Hf, Hg, Ho, ?Hp, !nmul_Fin, !nsub_Fin, nadd_Fin;
      constructor; ring.
Qed.

(** The payment of the closed form is never negative. *)
Lemma q_payment_nonneg (debt rate : Q) (tenor : Z) :
  0 <= rate -> 0 <= q_payment debt rate tenor.
Proof.
  intros Hr. unfold q_payment.
  destruct (Qle_bool debt 0) eqn:Ed; cbn [negb andb]; [lra|].
  apply Qle_bool_false in Ed.
  destruct (0 <? tenor)%Z eqn:Et; [|lra].
  apply Z.ltb_lt in Et.
  assert (Hz : 0 < inject_Z tenor) by now apply inject_Z_pos.
  destruct (Qeq_bool rate 0) eqn:E.
  - apply Qle_shift_div_l; lra.
  - apply Qeq_bool_neq in E.
    assert (Hd : 0 < (1 + rate) ^ tenor - 1)
      by (apply annuity_denominator_pos; [lra | exact Et]).
    apply Qle_shift_div_l; [exact Hd|].
    assert (Hpw : 0 <= (1 + rate) ^ tenor) by (apply Qpower_0_le; lra).
    rewrite Qmult_0_l. repeat apply Qmult_le_0_compat; lra.
Qed.


(* ------------------------------------------------------------------ *)
(** ** The sweep is the pipeline on unrounded figures *)
(* ------------------------------------------------------------------ *)

(** The net column of the unrounded table is the cash-flow vector of the
    sweep. *)
Lemma unrounded_rows_net (d : Derived) (tenor : Z) :
  forall (yrs : list Z) (c : num),
    map netCashFlow (unrounded_rows d tenor c yrs) =
    map (fun yr => y_netCF (year_flow d tenor yr)) yrs.
Proof.
  induction yrs as [|yr yrs IH]; intros c; cbn [unrounded_rows map];
    [reflexivity|].
  cbn [netCashFlow]. now rewrite IH.
Qed.

(** From index [i >= 1], the scan of [calc] on the unrounded rows and the
    loop of the sweep compute the same payback, the net cash flows being
    finite. *)
Lemma payback_scan_unrounded (d : Derived) (tenor : Z) :
  (forall yr, is_finite (y_netCF (year_flow d tenor yr)) = true) ->
  forall (yrs : list Z) (i : Z) (prev : CashFlowYear) (c : Q),
    (1 <= i)%Z -> cumulativeCashFlow prev = Fin c ->
    payback_scan i prev (unrounded_rows d tenor (Fin c) yrs) =n=
    sens_payback_loop i (Fin c)
      (map (fun yr => y_netCF (year_flow d tenor yr)) yrs).
Proof.
  intros Hfin. induction yrs as [|yr yrs IH]; intros i prev c Hi Hprev;
    cbn [unrounded_rows map payback_scan sens_payback_loop];
    [reflexivity|].
  cbn [cumulativeCashFlow netCashFlow].
  replace (0 <? i)%Z with true by (symmetry; apply Z.ltb_lt; lia).
  cbn [andb]. rewrite Hprev.
  specialize (Hfin yr).
  destruct (y_netCF (year_flow d tenor yr)) as [x| | |]; try discriminate.
  destruct (ngtb (nadd (Fin c) (Fin x)) (Fin 0)).
  - assert (E : nsub (nadd (Fin c) (Fin x)) (Fin x) =n= Fin c)
      by (rewrite nadd_Fin, nsub_Fin; constructor; ring).
    now rewrite E.
  - cbn [nadd]. apply IH; [lia | reflexivity].
Qed.

(** X6.  For every input whose interest rate is not negative, the point the
    sweep computes for the capex per kWh of the input carries the payback
    and the IRR of the unrounded sequences. *)
Lemma sens_point_unrounded (p : Inputs) :
  0 <= interestRate p ->
  sp_payback (sens_point p (capexPerKwh p)) =n= payback_unrounded p /\
  sp_irr (sens_point p (capexPerKwh p)) = nmul (irr_unrounded p) (Fin 100).
Proof.
  intros Hr. unfold sens_point, payback_unrounded, irr_unrounded,
    unrounded_table, sens_flows.
  cbn [sp_payback sp_irr]. split.
  - change year_range with (0%Z :: tl year_range).
    cbn [unrounded_rows map payback_of_table sens_payback_loop Z.ltb
         Z.compare andb].
    destruct (num_eq_Fin_inv _ _
                (year_flow_netCF p (capexPerKwh p) 0 Hr)) as (x & Hx & _).
    rewrite Hx. cbn [nadd]. symmetry.
    apply payback_scan_unrounded; [|lia | reflexivity].
    intros yr. now rewrite (year_flow_netCF p (capexPerKwh p) yr Hr).
  - now rewrite unrounded_rows_net.
Qed.

(* ------------------------------------------------------------------ *)
(** ** The cash-flow table *)
(* ------------------------------------------------------------------ *)

Lemma project_loop_flows (d : Derived) (tenor : Z) (rate : Q) (yrs : list Z) :
  forall st,
    l_flows (fold_left (project_step d tenor rate) yrs st) =
    l_flows st ++ table_rows d tenor (l_cumulative st) yrs.
Proof.
  induction yrs as [|yr yrs IH]; intros st; cbn [fold_left table_rows].
  - now rewrite app_nil_r.
  - rewrite IH. unfold project_step. cbn [l_flows l_cumulative].
    now rewrite <- app_assoc.
Qed.

Lemma calc_flows (p : Inputs) :
  flows (calc p) =
  table_rows (derive p (capexPerKwh p)) (loanTenor p) (Fin 0) year_range.
Proof.
  unfold calc. cbn [flows]. unfold project_loop.
  now rewrite project_loop_flows.
Qed.





(** *** Rounding *)




(** The fields of [calc]'s result. *)
Lemma calc_debt (p : Inputs) :
  debt (calc p) = d_debt (derive p (capexPerKwh p)).
Proof. reflexivity. Qed.

Lemma calc_annualDebtPmt (p : Inputs) :
  annualDebtPmt (calc p) = d_annualDebtPmt (derive p (capexPerKwh p)).
Proof. reflexivity. Qed.

(* ------------------------------------------------------------------ *)
(** ** The debt-service window *)
(* ------------------------------------------------------------------ *)




(* ------------------------------------------------------------------ *)
(** ** Cumulative consistency of the rounded table *)
(* ------------------------------------------------------------------ *)




(* ------------------------------------------------------------------ *)
(** ** The payback scan of [calc] *)
(* ------------------------------------------------------------------ *)

(** The scan stops at the first row whose cumulative column is positive
    and interpolates with the row before it. *)
Lemma payback_scan_crossing :
  forall (rest : list CashFlowYear) (k : Z) (prev : CashFlowYear) (j : nat)
         (g pr : CashFlowYear),
    nth_error rest j = Some g ->
    nth_error (prev :: rest) j = Some pr ->
    (forall j' h, (j' < j)%nat -> nth_error rest j' = Some h ->
                  ngtb (cumulativeCashFlow h) (Fin 0) = false) ->
    ngtb (cumulativeCashFlow g) (Fin 0) = true ->
    payback_scan k prev rest =
    nadd (nsub (of_Z (k + Z.of_nat j)) (Fin 1))
         (ndiv (nneg (cumulativeCashFlow pr)) (netCashFlow g)).
Proof.
  induction rest as [|f rest IH]; intros k prev j g pr Hg Hpr Hbefore Hpos.
  - destruct j; discriminate.
  - destruct j as [|j]; cbn [nth_error] in Hg, Hpr.
    + injection Hg as <-. injection Hpr as <-.
      cbn [payback_scan]. rewrite Hpos.
      now rewrite Z.add_0_r.
    + cbn [payback_scan].
      rewrite (Hbefore 0%nat f) by (reflexivity || lia).
      rewrite (IH (k + 1)%Z f j g pr Hg Hpr); [|
        intros j' h Hj' Hh; apply (Hbefore (S j') h); [lia | exact Hh] |
        exact Hpos].
      replace (k + 1 + Z.of_nat j)%Z with (k + Z.of_nat (S j))%Z by lia.
      reflexivity.
Qed.




(* ------------------------------------------------------------------ *)
(** ** Finiteness of the outputs *)
(* ------------------------------------------------------------------ *)

Lemma is_finite_of_eq (x : num) (q : Q) : x =n= Fin q -> is_finite x = true.
Proof. intros H. now rewrite H. Qed.

Lemma is_finite_nadd (x y : num) :
  is_finite x = true -> is_finite y = true -> is_finite (nadd x y) = true.
Proof. destruct x, y; try discriminate; reflexivity. Qed.

Lemma is_finite_nneg (x : num) :
  is_finite x = true -> is_finite (nneg x) = true.
Proof. destruct x; try discriminate; reflexivity. Qed.

Lemma is_finite_nsub (x y : num) :
  is_finite x = true -> is_finite y = true -> is_finite (nsub x y) = true.
Proof. destruct x, y; try discriminate; reflexivity. Qed.

Lemma is_finite_nmul (x y : num) :
  is_finite x = true -> is_finite y = true -> is_finite (nmul x y) = true.
Proof. destruct x, y; try discriminate; reflexivity. Qed.

Lemma is_finite_nround (x : num) :
  is_finite x = true -> is_finite (nround x) = true.
Proof. destruct x; try discriminate; reflexivity. Qed.

Lemma is_finite_npow (q : Q) (n : Z) :
  ~ q == 0 -> is_finite (npow (Fin q) n) = true.
Proof. intros H. now rewrite (npow_Fin q n H). Qed.

Create HintDb finite.

#[local] Hint Resolve is_finite_nadd is_finite_nneg is_finite_nsub
  is_finite_nmul is_finite_nround : finite.

(** The remaining constants computed before the loop. *)
Lemma derive_values_revenue (p : Inputs) (cpx : Q) :
  let d := derive p cpx in
  d_powerKw d =n= Fin (bessSize p * POWER_TO_ENERGY) /\
  d_feeAnnual d =n= Fin (q_grossRevenue p * q_feeRate p) /\
  d_netRevenue d =n= Fin (q_netRevenue p).
Proof.
  intros d. subst d. unfold derive.
  cbn [d_powerKw d_feeAnnual d_netRevenue].
  assert (Hf : (if includeAggregatorFee p
                then ndiv (Fin (aggregatorFeePercent p)) (Fin 100)
                else Fin 0) =n= Fin (q_feeRate p)).
  { unfold q_feeRate. destruct (includeAggregatorFee p); [|reflexivity].
    apply ndiv_Fin. discriminate. }
  repeat apply conj.
  - apply nmul_Fin.
  - rewrite Hf, !nmul_Fin. reflexivity.
  - rewrite Hf, !nmul_Fin, nsub_Fin. reflexivity.
Qed.

Lemma derive_finite (p : Inputs) (cpx : Q) :
  0 <= interestRate p -> derived_finite (derive p cpx).
Proof.
  intros Hr.
  destruct (derive_values p cpx Hr) as (Hf & Hg & _ & Ho & _ & He & Hp).
  repeat split; eapply is_finite_of_eq; eassumption.
Qed.

(** The figures of a year are finite. *)
Lemma year_flow_finite (d : Derived) (tenor yr : Z) :
  derived_finite d ->
  let y := year_flow d tenor yr in
  is_finite (y_rev y) = true /\ is_finite (y_fee y) = true /\
  is_finite (y_opex y) = true /\ is_finite (y_ebitda y) = true /\
  is_finite (y_debtSvc y) = true /\ is_finite (y_netCF y) = true.
Proof.
  intros (Hf & Hg & Ho & He & Hp) y. subst y. unfold year_flow.
  cbn [y_rev y_fee y_opex y_ebitda y_debtSvc y_netCF].
  assert (Hdeg : is_finite (npow (nsub (Fin 1) (Fin DEGRADATION_RATE))
                                 (yr - 1)) = true).
  { rewrite nsub_Fin. apply is_finite_npow. discriminate. }
  destruct (yr =? 0)%Z, ((0 <? yr)%Z && (yr <=? tenor)%Z);
    repeat split; auto 10 with finite.
Qed.

Lemma table_rows_finite (d : Derived) (tenor : Z) :
  derived_finite d ->
  forall (yrs : list Z) (c : num),
    is_finite c = true -> Forall row_finite (table_rows d tenor c yrs).
Proof.
  intros Hd. induction yrs as [|yr yrs IH]; intros c Hc; cbn [table_rows].
  - constructor.
  - destruct (year_flow_finite d tenor yr Hd) as (H1 & H2 & H3 & H4 & H5 & H6).
    constructor.
    + unfold row_finite.
      cbn [revenue aggregatorFee opex ebitda debtService netCashFlow
           cumulativeCashFlow].
      repeat split; auto with finite.
    + apply IH. auto with finite.
Qed.

Lemma table_rows_length (d : Derived) (tenor : Z) :
  forall (yrs : list Z) (c : num),
    List.length (table_rows d tenor c yrs) = List.length yrs.
Proof.
  induction yrs as [|yr yrs IH]; intros c; cbn [table_rows List.length];
    [reflexivity | now rewrite IH].
Qed.

(** The [npv] accumulator stays finite. *)
Lemma npv_fold_finite (d : Derived) (tenor : Z) (rate : Q) :
  derived_finite d -> ~ 1 + rate == 0 ->
  forall (yrs : list Z) (acc : num),
    is_finite acc = true ->
    is_finite
      (fold_left
         (fun acc yr =>
            nadd acc (nmul (y_netCF (year_flow d tenor yr))
                           (npow (nadd (Fin 1) (Fin rate)) (- yr))))
         yrs acc) = true.
Proof.
  intros Hd Hrate. induction yrs as [|yr yrs IH]; intros acc Hacc;
    cbn [fold_left]; [exact Hacc|].
  apply IH. apply is_finite_nadd; [exact Hacc|].
  apply is_finite_nmul.
  - apply (year_flow_finite d tenor yr Hd).
  - rewrite nadd_Fin. now apply is_finite_npow.
Qed.

(** The solver's rate and step stay finite, whatever the cash flows. *)
Lemma calcIRR_loop_finite (cashFlows : list num) :
  forall (k : nat) (r step : num),
    is_finite r = true -> is_finite step = true ->
    is_finite (calcIRR_loop k cashFlows r step) = true.
Proof.
  induction k as [|k IH]; intros r step Hr Hs; [exact Hr|].
  rewrite calcIRR_loop_S.
  destruct (nltb _ _); [exact Hr|].
  destruct (ngtb _ _); apply IH; auto with finite.
  destruct step; try discriminate. reflexivity.
Qed.

Lemma calcIRR_finite (cashFlows : list num) :
  is_finite (calcIRR cashFlows) = true.
Proof. apply calcIRR_loop_finite; reflexivity. Qed.

(** The payback scan gives a finite number unless it divides by a net
    cash flow of 0. *)
Lemma payback_scan_finite :
  forall (rest : list CashFlowYear) (k : Z) (prev : CashFlowYear),
    row_finite prev -> Forall row_finite rest ->
    (forall g, In g rest -> ngtb (cumulativeCashFlow g) (Fin 0) = true ->
               ~ netCashFlow g =n= Fin 0) ->
    is_finite (payback_scan k prev rest) = true.
Proof.
  induction rest as [|f rest IH]; intros k prev Hprev Hall Hnz;
    cbn [payback_scan]; [reflexivity|].
  inversion Hall as [|? ? Hf Hrest]; subst.
  destruct (ngtb (cumulativeCashFlow f) (Fin 0)) eqn:E.
  - specialize (Hnz f (or_introl eq_refl) E).
    destruct Hprev as (_ & _ & _ & _ & _ & _ & Hc).
    destruct Hf as (_ & _ & _ & _ & _ & Hn & _).
    destruct (cumulativeCashFlow prev) as [a| | |]; try discriminate.
    destruct (netCashFlow f) as [b| | |]; try discriminate.
    assert (Hb : ~ b == 0) by (intros Hb; apply Hnz; now constructor).
    rewrite nneg_Fin, (ndiv_Fin _ _ Hb). reflexivity.
  - apply IH; [exact Hf | exact Hrest |].
    intros g Hg. apply Hnz. right. exact Hg.
Qed.

(** *** Zero storage capacity *)

Lemma q_payment_zero_debt (debt rate : Q) (tenor : Z) :
  debt == 0 -> q_payment debt rate tenor == 0.
Proof.
  intros H. unfold q_payment.
  replace (Qle_bool debt 0) with true; [reflexivity|].
  symmetry. apply Qle_bool_iff. lra.
Qed.

Lemma q_netCF_zero_capacity (p : Inputs) (cpx : Q) (yr : Z) :
  bessSize p == 0 -> q_netCF p cpx yr == 0.
Proof.
  intros H.
  assert (Hc : q_totalCapex p cpx == 0)
    by (unfold q_totalCapex; rewrite H; ring).
  assert (Hg : q_grossRevenue p == 0)
    by (unfold q_grossRevenue; rewrite H; ring).
  assert (Hd : q_debt p cpx == 0) by (unfold q_debt; rewrite Hc; ring).
  assert (Hs : q_debtSvc p cpx yr == 0).
  { unfold q_debtSvc, q_annualDebtPmt.
    destruct ((0 <? yr)%Z && (yr <=? loanTenor p)%Z); [|reflexivity].
    now apply q_payment_zero_debt. }
  unfold q_netCF, q_equity, q_annualOm.
  destruct (yr =? 0)%Z; rewrite ?Hs, ?Hg, ?Hc, ?Hd; ring.
Qed.

(** With net cash flows that are all 0, the net and cumulative columns
    of the table are 0. *)
Lemma table_rows_zero (d : Derived) (tenor : Z) :
  (forall yr, y_netCF (year_flow d tenor yr) =n= Fin 0) ->
  forall (yrs : list Z) (c : num),
    c =n= Fin 0 ->
    Forall (fun f => netCashFlow f =n= Fin 0 /\
                     cumulativeCashFlow f =n= Fin 0)
           (table_rows d tenor c yrs).
Proof.
  intros Hz. induction yrs as [|yr yrs IH]; intros c Hc; cbn [table_rows];
    constructor.
  - cbn [netCashFlow cumulativeCashFlow]. rewrite Hc, (Hz yr).
    split; constructor; reflexivity.
  - apply IH. rewrite Hc, (Hz yr). constructor; reflexivity.
Qed.

(** A table whose cumulative column is never positive has the project
    life as payback. *)
Lemma payback_scan_no_crossing :
  forall (rest : list CashFlowYear) (k : Z) (prev : CashFlowYear),
    Forall (fun f => ngtb (cumulativeCashFlow f) (Fin 0) = false) rest ->
    payback_scan k prev rest = of_Z PROJECT_LIFE.
Proof.
  induction rest as [|f rest IH]; intros k prev Hall; cbn [payback_scan];
    [reflexivity|].
  inversion Hall as [|? ? Hf Hrest]; subst.
  rewrite Hf. now apply IH.
Qed.

Lemma payback_of_table_no_crossing (flows : list CashFlowYear) :
  Forall (fun f => cumulativeCashFlow f =n= Fin 0) flows ->
  payback_of_table flows = of_Z PROJECT_LIFE.
Proof.
  intros Hall. destruct flows as [|f0 rest]; [reflexivity|].
  cbn [payback_of_table]. apply payback_scan_no_crossing.
  inversion Hall as [|? ? _ Hrest]; subst.
  eapply Forall_impl; [|exact Hrest].
  intros f Hf. cbv beta in Hf. now rewrite Hf.
Qed.

(** A sum of terms that are all 0, from a seed that is 0. *)
Lemma fold_nadd_zero (term : Z -> num) :
  (forall yr, term yr =n= Fin 0) ->
  forall (yrs : list Z) (acc : num),
    acc =n= Fin 0 ->
    fold_left (fun acc yr => nadd acc (term yr)) yrs acc =n= Fin 0.
Proof.
  intros Hz. induction yrs as [|yr yrs IH]; intros acc Hacc; cbn [fold_left];
    [exact Hacc|].
  apply IH. rewrite Hacc, (Hz yr). constructor; reflexivity.
Qed.

(** The fields of [calc]'s result, continued. *)
Lemma calc_npv (p : Inputs) :
  npv (calc p) =
  fold_left
    (fun acc yr =>
       nadd acc
            (nmul (y_netCF (year_flow (derive p (capexPerKwh p))
                                      (loanTenor p) yr))
                  (npow (nadd (Fin 1) (Fin (discountRate p))) (- yr))))
    year_range (nneg (d_equity (derive p (capexPerKwh p)))).
Proof.
  unfold calc. cbn [npv]. unfold project_loop.
  now rewrite project_loop_npv.
Qed.

Lemma calc_irr (p : Inputs) :
  irr (calc p) = calcIRR (map netCashFlow (flows (calc p))).
Proof. unfold calc. cbn [irr flows]. reflexivity. Qed.

Lemma calc_payback (p : Inputs) :
  payback (calc p) = payback_of_table (flows (calc p)).
Proof. unfold calc. cbn [payback flows]. reflexivity. Qed.

Lemma calc_ebitdaMarginYear1 (p : Inputs) :
  ebitdaMarginYear1 (calc p) =
  toFixed1
    (nmul (ndiv (nsub (d_netRevenue (derive p (capexPerKwh p)))
                      (d_annualOm (derive p (capexPerKwh p))))
                (d_netRevenue (derive p (capexPerKwh p))))
          (Fin 100)).
Proof. reflexivity. Qed.

(** The margin as a number, before [toFixed]. *)
Lemma margin_value (p : Inputs) :
  0 <= interestRate p ->
  let d := derive p (capexPerKwh p) in
  let m := nmul (ndiv (nsub (d_netRevenue d) (d_annualOm d))
                      (d_netRevenue d)) (Fin 100) in
  (~ q_netRevenue p == 0 -> is_finite m = true) /\
  (q_netRevenue p == 0 -> is_finite m = false) /\
  (q_netRevenue p == 0 -> q_annualOm p (capexPerKwh p) == 0 -> m = NaN).
Proof.
  intros Hr d m.
  destruct (derive_values p (capexPerKwh p) Hr) as (_ & _ & _ & Ho & _).
  destruct (derive_values_revenue p (capexPerKwh p)) as (_ & _ & Hn).
  fold d in Ho, Hn.
  apply num_eq_Fin_inv in Ho as (o & Eo & Ho).
  apply num_eq_Fin_inv in Hn as (n & En & Hn).
  subst m. rewrite Eo, En. clear Eo En.
  repeat apply conj.
  - intros Hnz. assert (Hn' : ~ n == 0) by (now rewrite Hn).
    rewrite nsub_Fin, (ndiv_Fin _ _ Hn'), nmul_Fin. reflexivity.
  - intros Hz. cbn [nsub nneg nadd ndiv].
    rewrite (Qeq_bool_comp n 0 0 0) by (now rewrite ?Hn, ?Hz).
    change (Qeq_bool 0 0) with true. cbv iota.
    unfold inf_of_sign. now destruct (_ ?= 0).
  - intros Hz Hoz. cbn [nsub nneg nadd ndiv].
    rewrite (Qeq_bool_comp n 0 0 0) by (now rewrite ?Hn, ?Hz).
    change (Qeq_bool 0 0) with true. cbv iota.
    unfold inf_of_sign.
    replace (Qred (n + Qred (- o)) ?= 0) with Eq; [reflexivity|].
    symmetry. apply Qeq_alt. rewrite !Qred_correct, Hn, Hz, Ho, Hoz. ring.
Qed.

Lemma calc_scalars (p : Inputs) :
  let d := derive p (capexPerKwh p) in
  powerKw (calc p) = d_powerKw d /\ totalCapex (calc p) = d_totalCapex d /\
  equity (calc p) = d_equity d /\ annualOm (calc p) = d_annualOm d /\
  grossRevenue (calc p) = d_grossRevenue d /\
  feeAnnual (calc p) = d_feeAnnual d /\ netRevenue (calc p) = d_netRevenue d.
Proof.
  unfold calc.
  cbn [powerKw totalCapex equity annualOm grossRevenue feeAnnual netRevenue].
  repeat split.
Qed.

(** At capacity zero the margin is the string [NaN]. *)
Lemma margin_nan_zero_capacity :
  bessSize zero_capacity_inputs == 0 /\
  ebitdaMarginYear1 (calc zero_capacity_inputs) = Str "NaN".
Proof. split; [reflexivity | vm_compute; reflexivity]. Qed.

(** In exact arithmetic, for every input whose interest rate is not
    negative and whose discount rate is not -1, the projection yields 13
    rows and its constants, every field of every row, [npv] and [irr] are
    finite numbers.  [payback] is finite unless the table's net cash flow
    is 0 in a year whose cumulative column is positive.
    [ebitdaMarginYear1] is the rendering of a finite number exactly when
    the net revenue of year 1 is not 0.  At capacity zero, [payback] is 12,
    [irr] is 0.1, [npv] is 0 and [ebitdaMarginYear1] is the string
    [NaN]. *)
Lemma calc_outputs_finite (p : Inputs) :
  0 <= interestRate p -> ~ 1 + discountRate p == 0 ->
  (is_finite (powerKw (calc p)) = true /\
   is_finite (totalCapex (calc p)) = true /\
   is_finite (equity (calc p)) = true /\
   is_finite (debt (calc p)) = true /\
   is_finite (annualOm (calc p)) = true /\
   is_finite (grossRevenue (calc p)) = true /\
   is_finite (feeAnnual (calc p)) = true /\
   is_finite (netRevenue (calc p)) = true /\
   is_finite (annualDebtPmt (calc p)) = true) /\
  List.length (flows (calc p)) = 13%nat /\
  Forall row_finite (flows (calc p)) /\
  is_finite (npv (calc p)) = true /\
  is_finite (irr (calc p)) = true /\
  ((forall g, In g (flows (calc p)) ->
              ngtb (cumulativeCashFlow g) (Fin 0) = true ->
              ~ netCashFlow g =n= Fin 0) ->
   is_finite (payback (calc p)) = true) /\
  (~ q_netRevenue p == 0 ->
   exists m, ebitdaMarginYear1 (calc p) = toFixed1 (Fin m)) /\
  (q_netRevenue p == 0 ->
   In (ebitdaMarginYear1 (calc p))
      [Str "NaN"; Str "Infinity"; Str "-Infinity"]) /\
  (bessSize p == 0 ->
   payback (calc p) = of_Z 12 /\ irr (calc p) = Fin (1 # 10) /\
   npv (calc p) =n= Fin 0 /\ ebitdaMarginYear1 (calc p) = Str "NaN").
Proof.
  intros Hr Hdisc.
  pose proof (derive_finite p (capexPerKwh p) Hr) as Hd.
  destruct (derive_values p (capexPerKwh p) Hr)
    as (Hv1 & Hv2 & Hv3 & Hv4 & Hv5 & Hv6 & Hv7).
  destruct (derive_values_revenue p (capexPerKwh p)) as (Hw1 & Hw2 & Hw3).
  destruct (calc_scalars p) as (E1 & E2 & E3 & E4 & E5 & E6 & E7).
  destruct (margin_value p Hr) as (Hm1 & Hm2 & Hm3).
  split; [|split; [|split; [|split; [|split; [|split; [|split; [|split]]]]]]].
  - rewrite E1, E2, E3, E4, E5, E6, E7, calc_debt, calc_annualDebtPmt.
    repeat split; eapply is_finite_of_eq; eassumption.
  - rewrite calc_flows, table_rows_length. reflexivity.
  - rewrite calc_flows. now apply table_rows_finite.
  - rewrite calc_npv. apply npv_fold_finite; [exact Hd | exact Hdisc |].
    apply is_finite_nneg. apply Hd.
  - rewrite calc_irr. apply calcIRR_finite.
  - intros Hnz. rewrite calc_payback.
    assert (Hall : Forall row_finite (flows (calc p)))
      by (rewrite calc_flows; now apply table_rows_finite).
    destruct (flows (calc p)) as [|f0 rest]; [reflexivity|].
    inversion Hall; subst. cbn [payback_of_table].
    apply payback_scan_finite; auto.
    intros g Hg. apply Hnz. right. exact Hg.
  - intros Hnz. rewrite calc_ebitdaMarginYear1.
    specialize (Hm1 Hnz).
    destruct (nmul _ _) as [m| | |]; try discriminate. now exists m.
  - intros Hz. rewrite calc_ebitdaMarginYear1.
    specialize (Hm2 Hz).
    destruct (nmul _ _) as [m| | |]; try discriminate; cbn; auto.
  - intros Hzero.
    assert (Hnet : forall yr,
               y_netCF (year_flow (derive p (capexPerKwh p)) (loanTenor p) yr)
               =n= Fin 0).
    { intros yr. rewrite (year_flow_netCF p (capexPerKwh p) yr Hr).
      constructor. now apply q_netCF_zero_capacity. }
    pose proof (table_rows_zero _ _ Hnet year_range (Fin 0)
                  (num_eq_refl (Fin 0))) as Hrows.
    rewrite <- calc_flows in Hrows.
    split; [|split; [|split]].
    + rewrite calc_payback. apply payback_of_table_no_crossing.
      eapply Forall_impl; [|exact Hrows]. intros f Hf. apply Hf.
    + rewrite calc_irr. apply calcIRR_first_trial.
      rewrite irr_npv_zeros; [reflexivity|].
      apply Forall_map. eapply Forall_impl; [|exact Hrows].
      intros f Hf. apply Hf.
    + rewrite calc_npv.
      apply (fold_nadd_zero
               (fun yr =>
                  nmul (y_netCF (year_flow (derive p (capexPerKwh p))
                                           (loanTenor p) yr))
                       (npow (nadd (Fin 1) (Fin (discountRate p))) (- yr)))).
      * intros yr. rewrite (Hnet yr), nadd_Fin, (npow_Fin _ _ Hdisc), nmul_Fin.
        constructor. ring.
      * rewrite Hv6, nneg_Fin. constructor.
        unfold q_equity, q_debt, q_totalCapex. rewrite Hzero. ring.
    + rewrite calc_ebitdaMarginYear1. rewrite Hm3; [reflexivity | |].
      * unfold q_netRevenue, q_grossRevenue. rewrite Hzero. ring.
      * unfold q_annualOm, q_totalCapex. rewrite Hzero. ring.
Qed.

(** *** Degenerate inputs *)

(** At capacity zero the constants of the loop are 0. *)
Lemma derive_zero_capacity (p : Inputs) (cpx : Q) :
  0 <= interestRate p -> bessSize p == 0 ->
  let d := derive p cpx in
  d_grossRevenue d =n= Fin 0 /\ d_totalCapex d =n= Fin 0 /\
  d_annualOm d =n= Fin 0 /\ d_debt d =n= Fin 0 /\ d_equity d =n= Fin 0 /\
  d_annualDebtPmt d =n= Fin 0.
Proof.
  intros Hr Hz d.
  destruct (derive_values p cpx Hr) as (_ & Hg & Hc & Ho & Hd & He & Hp).
  fold d in Hg, Hc, Ho, Hd, He, Hp.
  assert (Ec : q_totalCapex p cpx == 0)
    by (unfold q_totalCapex; rewrite Hz; ring).
  assert (Ed : q_debt p cpx == 0) by (unfold q_debt; rewrite Ec; ring).
  rewrite Hg, Hc, Ho, Hd, He, Hp.
  repeat apply conj; constructor.
  - unfold q_grossRevenue. rewrite Hz. ring.
  - exact Ec.
  - unfold q_annualOm. rewrite Ec. ring.
  - exact Ed.
  - unfold q_equity. rewrite Ec, Ed. ring.
  - unfold q_annualDebtPmt. now apply q_payment_zero_debt.
Qed.

(** With constants that are 0 and a finite fee rate, every figure of a
    year is 0. *)
Lemma year_flow_zero (d : Derived) (tenor yr : Z) (fr : Q) :
  d_feeRate d =n= Fin fr ->
  d_grossRevenue d =n= Fin 0 -> d_annualOm d =n= Fin 0 ->
  d_equity d =n= Fin 0 -> d_annualDebtPmt d =n= Fin 0 ->
  let y := year_flow d tenor yr in
  y_rev y =n= Fin 0 /\ y_fee y =n= Fin 0 /\ y_opex y =n= Fin 0 /\
  y_ebitda y =n= Fin 0 /\ y_debtSvc y =n= Fin 0 /\ y_netCF y =n= Fin 0.
Proof.
  intros Hf Hg Ho He Hp y. subst y. unfold year_flow.
  cbn [y_rev y_fee y_opex y_ebitda y_debtSvc y_netCF].
  assert (Hdeg : exists q, npow (nsub (Fin 1) (Fin DEGRADATION_RATE))
                                (yr - 1) =n= Fin q).
  { eexists. rewrite nsub_Fin. apply npow_Fin. discriminate. }
  destruct Hdeg as (q & Hq).
  destruct (yr =? 0)%Z, ((0 <? yr)%Z && (yr <=? tenor)%Z);
    rewrite ?Hg, ?Hf, ?Ho, ?He, ?Hp, ?Hq;
    rewrite ?nmul_Fin, ?nsub_Fin, ?nneg_Fin, ?nadd_Fin;
    repeat apply conj; constructor; ring.
Qed.

Lemma table_rows_all_zero (d : Derived) (tenor : Z) :
  (forall yr,
      let y := year_flow d tenor yr in
      y_rev y =n= Fin 0 /\ y_fee y =n= Fin 0 /\ y_opex y =n= Fin 0 /\
      y_ebitda y =n= Fin 0 /\ y_debtSvc y =n= Fin 0 /\
      y_netCF y =n= Fin 0) ->
  forall (yrs : list Z) (c : num),
    c =n= Fin 0 -> Forall row_zero (table_rows d tenor c yrs).
Proof.
  intros Hz. induction yrs as [|yr yrs IH]; intros c Hc; cbn [table_rows];
    constructor.
  - destruct (Hz yr) as (H1 & H2 & H3 & H4 & H5 & H6).
    unfold row_zero.
    cbn [revenue aggregatorFee opex ebitda debtService netCashFlow
         cumulativeCashFlow].
    rewrite H1, H2, H3, H4, H5, H6, Hc.
    repeat apply conj; constructor; reflexivity.
  - apply IH. destruct (Hz yr) as (_ & _ & _ & _ & _ & H6).
    rewrite Hc, H6. constructor; reflexivity.
Qed.

(** Without a loan tenor there is no payment. *)
Lemma annual_debt_payment_no_tenor (debt rate : num) :
  annual_debt_payment debt rate 0 = Fin 0.
Proof. unfold annual_debt_payment. now rewrite andb_false_r. Qed.

Lemma table_rows_debtService_zero (d : Derived) (tenor : Z) :
  d_annualDebtPmt d = Fin 0 ->
  forall (yrs : list Z) (c : num),
    Forall (fun f => debtService f = Fin 0) (table_rows d tenor c yrs).
Proof.
  intros Hp. induction yrs as [|yr yrs IH]; intros c; cbn [table_rows];
    constructor; [|apply IH].
  cbn [debtService]. unfold year_flow. cbn [y_debtSvc]. rewrite Hp.
  now destruct ((0 <? yr)%Z && (yr <=? tenor)%Z).
Qed.

(** C9, amended.  For every input in range (capacity and capex per kWh in
    [0, 10^6], debt ratio in [0, 1], interest rate 0 or in [0.0001, 1],
    loan tenor 0 to 100, discount rate not negative, fee in [0, 100] when
    enabled), zero capacity, zero revenue, zero loan tenor and 100 % debt
    ratio included, the projection yields 13 rows and its constants, every
    field of every row, [npv] and [irr] are finite numbers; [payback] is
    finite unless the table's net cash flow is 0 in a year whose
    cumulative column is positive.  [ebitdaMarginYear1] is not always
    finite.  At capacity zero every cell of the table and [npv] are 0,
    [irr] is 0.1, [payback] is 12 and [ebitdaMarginYear1] is the string
    [NaN].  With the fee at 100 % (no revenue) [ebitdaMarginYear1] is
    [NaN], [Infinity] or [-Infinity].  With a loan tenor of 0 the payment
    and every debt-service cell are 0; with a debt ratio of 100 % the
    equity is 0. *)
Theorem calc_degenerate_outputs (p : Inputs) :
  inputs_in_range p ->
  (is_finite (powerKw (calc p)) = true /\
   is_finite (totalCapex (calc p)) = true /\
   is_finite (equity (calc p)) = true /\
   is_finite (debt (calc p)) = true /\
   is_finite (annualOm (calc p)) = true /\
   is_finite (grossRevenue (calc p)) = true /\
   is_finite (feeAnnual (calc p)) = true /\
   is_finite (netRevenue (calc p)) = true /\
   is_finite (annualDebtPmt (calc p)) = true) /\
  List.length (flows (calc p)) = 13%nat /\
  Forall row_finite (flows (calc p)) /\
  is_finite (npv (calc p)) = true /\
  is_finite (irr (calc p)) = true /\
  ((forall g, In g (flows (calc p)) ->
              ngtb (cumulativeCashFlow g) (Fin 0) = true ->
              ~ netCashFlow g =n= Fin 0) ->
   is_finite (payback (calc p)) = true) /\
  (bessSize p == 0 ->
   Forall row_zero (flows (calc p)) /\
   totalCapex (calc p) =n= Fin 0 /\ equity (calc p) =n= Fin 0 /\
   debt (calc p) =n= Fin 0 /\ annualDebtPmt (calc p) =n= Fin 0 /\
   npv (calc p) =n= Fin 0 /\ irr (calc p) = Fin (1 # 10) /\
   payback (calc p) = of_Z 12 /\
   ebitdaMarginYear1 (calc p) = Str "NaN") /\
  (includeAggregatorFee p = true -> aggregatorFeePercent p == 100 ->
   In (ebitdaMarginYear1 (calc p))
      [Str "NaN"; Str "Infinity"; Str "-Infinity"]) /\
  (loanTenor p = 0%Z ->
   annualDebtPmt (calc p) = Fin 0 /\
   Forall (fun f => debtService f = Fin 0) (flows (calc p))) /\
  (debtRatio p == 1 -> equity (calc p) =n= Fin 0).
Proof.
  intros (Hs & Hc & Hratio & Hrate & Ht & Hd & Hfee).
  assert (Hr : 0 <= interestRate p) by (destruct Hrate; lra).
  assert (Hdisc : ~ 1 + discountRate p == 0) by lra.
  destruct (calc_outputs_finite p Hr Hdisc)
    as (F1 & F2 & F3 & F4 & F5 & F6 & _ & F8 & F9).
  destruct (calc_scalars p) as (_ & E2 & E3 & _).
  split; [exact F1|]. split; [exact F2|]. split; [exact F3|].
  split; [exact F4|]. split; [exact F5|]. split; [exact F6|].
  split; [|split; [|split]].
  - intros Hz.
    destruct (derive_zero_capacity p (capexPerKwh p) Hr Hz)
      as (Zg & Zc & Zo & Zd & Ze & Zp).
    destruct (derive_values p (capexPerKwh p) Hr) as (Zf & _).
    destruct (F9 Hz) as (P1 & P2 & P3 & P4).
    split.
    { rewrite calc_flows. apply table_rows_all_zero; [|reflexivity].
      intros yr. now apply (year_flow_zero _ _ _ (q_feeRate p)). }
    rewrite E2, E3, calc_debt, calc_annualDebtPmt.
    repeat (split; [assumption|]). assumption.
  - intros Hon Hpct. apply F8.
    unfold q_netRevenue, q_feeRate. rewrite Hon, Hpct. field.
  - intros Hzero. rewrite calc_annualDebtPmt, calc_flows.
    assert (Hp : d_annualDebtPmt (derive p (capexPerKwh p)) = Fin 0).
    { unfold derive. cbn [d_annualDebtPmt]. rewrite Hzero.
      apply annual_debt_payment_no_tenor. }
    split; [exact Hp|]. rewrite Hzero in *.
    now apply table_rows_debtService_zero.
  - intros Hone. rewrite E3.
    destruct (derive_values p (capexPerKwh p) Hr)
      as (_ & _ & _ & _ & _ & He & _).
    rewrite He. constructor. unfold q_equity, q_debt. rewrite Hone. ring.
Qed.

Lemma calc_degenerate_outputs_witness :
  Forall row_zero (flows (calc zero_capacity_inputs)) /\
  totalCapex (calc zero_capacity_inputs) =n= Fin 0 /\
  equity (calc zero_capacity_inputs) =n= Fin 0 /\
  debt (calc zero_capacity_inputs) =n= Fin 0 /\
  annualDebtPmt (calc zero_capacity_inputs) =n= Fin 0 /\
  npv (calc zero_capacity_inputs) =n= Fin 0 /\
  irr (calc zero_capacity_inputs) = Fin (1 # 10) /\
  payback (calc zero_capacity_inputs) = of_Z 12 /\
  ebitdaMarginYear1 (calc zero_capacity_inputs) = Str "NaN".
Proof.
  apply (calc_degenerate_outputs zero_capacity_inputs).
  - unfold inputs_in_range, zero_capacity_inputs.
    cbn [bessSize capexPerKwh debtRatio interestRate loanTenor discountRate
         includeAggregatorFee aggregatorFeePercent].
    split; [split; vm_compute; discriminate|].
    split; [split; vm_compute; discriminate|].
    split; [split; vm_compute; discriminate|].
    split; [right; split; vm_compute; discriminate|].
    split; [lia|].
    split; [vm_compute; discriminate|].
    intros H. discriminate H.
  - reflexivity.
Defined.

(* ------------------------------------------------------------------ *)
(** ** Monotonicity of the sweep's payback *)
(* ------------------------------------------------------------------ *)

(** The payback loop of the sweep respects the equality of numbers. *)
Lemma sens_payback_loop_comp (xs ys : list num) :
  Forall2 num_eq xs ys ->
  forall (i : Z) (c c' : num),
    c =n= c' -> sens_payback_loop i c xs =n= sens_payback_loop i c' ys.
Proof.
  induction 1 as [|x y xs ys Hxy _ IH]; intros i c c' Hc;
    cbn [sens_payback_loop]; [reflexivity|].
  assert (Hs : nadd c x =n= nadd c' y) by now rewrite Hc, Hxy.
  rewrite (ngtb_Proper _ _ Hs _ _ (num_eq_refl (Fin 0))).
  destruct ((0 <? i)%Z && ngtb (nadd c' y) (Fin 0)).
  - now rewrite Hs, Hxy.
  - now apply IH.
Qed.

(** The value interpolated at a crossing. *)
Lemma crossing_value (i : Z) (c x : Q) :
  ~ x == 0 ->
  nadd (nsub (of_Z i) (Fin 1))
       (ndiv (nneg (nsub (nadd (Fin c) (Fin x)) (Fin x))) (Fin x))
  =n= Fin (inject_Z i - 1 + - c / x).
Proof.
  intros Hx. unfold of_Z.
  rewrite nadd_Fin, !nsub_Fin, nneg_Fin, (ndiv_Fin _ _ Hx), nadd_Fin.
  constructor. field. exact Hx.
Qed.

(** One iteration of the loop on finite numbers, from index 1 on. *)
Lemma sens_payback_loop_step (i : Z) (c x : Q) (xs : list Q) :
  (1 <= i)%Z -> c <= 0 ->
  (0 < c + x ->
   sens_payback_loop i (Fin c) (map Fin (x :: xs)) =n=
   Fin (inject_Z i - 1 + - c / x)) /\
  (c + x <= 0 ->
   sens_payback_loop i (Fin c) (map Fin (x :: xs)) =
   sens_payback_loop (i + 1) (Fin (Qred (c + x))) (map Fin xs)).
Proof.
  intros Hi Hc. cbn [map sens_payback_loop].
  replace (0 <? i)%Z with true by (symmetry; apply Z.ltb_lt; lia).
  cbn [andb]. split; intros H.
  - replace (ngtb (nadd (Fin c) (Fin x)) (Fin 0)) with true
      by (symmetry; rewrite nadd_Fin; now apply ngtb_Fin).
    apply crossing_value. lra.
  - replace (ngtb (nadd (Fin c) (Fin x)) (Fin 0)) with false
      by (symmetry; rewrite nadd_Fin; now apply ngtb_Fin_false).
    reflexivity.
Qed.

(** From index [i >= 1] with a running total that is not positive, the
    loop yields a finite payback between [i - 1] and the project life. *)
Lemma sens_payback_loop_bounds :
  forall (xs : list Q) (i : Z) (c : Q),
    (1 <= i)%Z -> c <= 0 -> (i + Z.of_nat (List.length xs) = 13)%Z ->
    exists v,
      sens_payback_loop i (Fin c) (map Fin xs) =n= Fin v /\
      inject_Z i - 1 <= v /\ v <= 12.
Proof.
  induction xs as [|x xs IH]; intros i c Hi Hc Hlen.
  - cbn in Hlen. assert (i = 13%Z) by lia. subst i.
    exists 12. cbn [map sens_payback_loop]. split; [reflexivity|].
    change (inject_Z 13) with 13. split; lra.
  - cbn [List.length] in Hlen.
    destruct (sens_payback_loop_step i c x xs Hi Hc) as [Hcross Hnext].
    assert (Hi12 : inject_Z i <= 12).
    { change 12 with (inject_Z 12). rewrite <- Zle_Qle. lia. }
    destruct (Qlt_le_dec 0 (c + x)) as [Hpos | Hneg].
    + exists (inject_Z i - 1 + - c / x). split; [now apply Hcross|].
      assert (Hx : 0 < x) by lra.
      assert (H0 : 0 <= - c / x) by (apply Qle_shift_div_l; lra).
      assert (H1 : - c / x <= 1) by (apply Qle_shift_div_r; lra).
      split; lra.
    + rewrite (Hnext Hneg).
      destruct (IH (i + 1)%Z (Qred (c + x))) as (v & Hv & Hlo & Hhi);
        [lia | rewrite Qred_correct; exact Hneg | lia |].
      exists v. split; [exact Hv|]. split; [|exact Hhi].
      rewrite inject_Z_plus in Hlo. change (inject_Z 1) with 1 in Hlo. lra.
Qed.

(** Pointwise smaller net cash flows and a smaller running total give a
    payback that is not smaller. *)
Lemma sens_payback_loop_mono (xs ys : list Q) :
  Forall2 (fun x y => y <= x) xs ys ->
  forall (i : Z) (cx cy : Q),
    (1 <= i)%Z -> cx <= 0 -> cy <= cx ->
    (i + Z.of_nat (List.length xs) = 13)%Z ->
    nleb (sens_payback_loop i (Fin cx) (map Fin xs))
         (sens_payback_loop i (Fin cy) (map Fin ys)) = true.
Proof.
  induction 1 as [|x y xs ys Hxy Hrest IH]; intros i cx cy Hi Hcx Hcy Hlen.
  - reflexivity.
  - cbn [List.length] in Hlen.
    assert (Hcy0 : cy <= 0) by lra.
    destruct (sens_payback_loop_step i cx x xs Hi Hcx) as [Xcross Xnext].
    destruct (sens_payback_loop_step i cy y ys Hi Hcy0) as [Ycross Ynext].
    destruct (Qlt_le_dec 0 (cy + y)) as [Hy | Hy].
    + (* both totals turn positive in this year *)
      assert (Hx : 0 < cx + x) by lra.
      rewrite (Xcross Hx), (Ycross Hy). apply nleb_Fin.
      assert (Hx0 : 0 < x) by lra. assert (Hy0 : 0 < y) by lra.
      assert (H : - cx / x <= - cy / y).
      { apply Qle_shift_div_l; [exact Hy0|].
        unfold Qdiv. rewrite <- Qmult_assoc, (Qmult_comm (/ x)), Qmult_assoc.
        apply Qle_shift_div_r; [exact Hx0|]. nra. }
      lra.
    + destruct (Qlt_le_dec 0 (cx + x)) as [Hx | Hx].
      * (* only the larger flows turn positive in this year *)
        rewrite (Xcross Hx), (Ynext Hy).
        assert (Hl : Z.of_nat (List.length ys) = Z.of_nat (List.length xs))
          by (now rewrite (Forall2_length Hrest)).
        destruct (sens_payback_loop_bounds ys (i + 1)%Z (Qred (cy + y)))
          as (v & Hv & Hlo & _);
          [lia | rewrite Qred_correct; exact Hy | lia |].
        rewrite Hv. apply nleb_Fin.
        rewrite inject_Z_plus in Hlo. change (inject_Z 1) with 1 in Hlo.
        assert (Hx0 : 0 < x) by lra.
        assert (H1 : - cx / x <= 1) by (apply Qle_shift_div_r; lra).
        lra.
      * rewrite (Xnext Hx), (Ynext Hy).
        apply IH; rewrite ?Qred_correct; try lia; lra.
Qed.

(** The whole loop, whose first entry (year 0) is never tested. *)
Lemma sens_payback_mono (xs ys : list Q) :
  Forall2 (fun x y => y <= x) xs ys ->
  List.length xs = 13%nat ->
  (forall x0, nth_error xs 0 = Some x0 -> x0 <= 0) ->
  nleb (sens_payback_loop 0 (Fin 0) (map Fin xs))
       (sens_payback_loop 0 (Fin 0) (map Fin ys)) = true.
Proof.
  intros Hall Hlen H0.
  destruct Hall as [|x y xs ys Hxy Hrest]; [discriminate|].
  specialize (H0 x eq_refl). cbn [List.length] in Hlen.
  cbn [map sens_payback_loop Z.ltb Z.compare andb nadd].
  apply (sens_payback_loop_mono xs ys Hrest 1);
    rewrite ?Qred_correct; try lia; lra.
Qed.

(** The payment grows with the debt. *)
Lemma q_payment_mono (d1 d2 rate : Q) (tenor : Z) :
  0 <= rate -> d1 <= d2 -> q_payment d1 rate tenor <= q_payment d2 rate tenor.
Proof.
  intros Hr Hd.
  destruct (Qlt_le_dec 0 d1) as [H1 | H1].
  - unfold q_payment.
    replace (Qle_bool d1 0) with false
      by (symmetry; now apply Qle_bool_false).
    replace (Qle_bool d2 0) with false
      by (symmetry; apply Qle_bool_false; lra).
    cbn [negb andb].
    destruct (0 <? tenor)%Z eqn:Et; [|lra].
    apply Z.ltb_lt in Et.
    destruct (Qeq_bool rate 0) eqn:E.
    + apply Qmult_le_compat_r; [exact Hd|].
      apply Qlt_le_weak, Qinv_lt_0_compat. now apply inject_Z_pos.
    + apply Qeq_bool_neq in E.
      assert (Hden : 0 < (1 + rate) ^ tenor - 1)
        by (apply annuity_denominator_pos; [lra | exact Et]).
      assert (Hpw : 0 <= (1 + rate) ^ tenor) by (apply Qpower_0_le; lra).
      apply Qmult_le_compat_r;
        [|apply Qlt_le_weak, Qinv_lt_0_compat; exact Hden].
      apply Qmult_le_compat_r; [|exact Hpw].
      apply Qmult_le_compat_r; [exact Hd | exact Hr].
  - unfold q_payment at 1.
    replace (Qle_bool d1 0) with true by (symmetry; now apply Qle_bool_iff).
    cbn [negb andb]. now apply q_payment_nonneg.
Qed.

Lemma q_equity_factor (p : Inputs) (c : Q) :
  q_equity p c == q_totalCapex p c * (1 - debtRatio p).
Proof. unfold q_equity, q_debt. ring. Qed.

(** Every net cash flow falls as the capex per kWh rises. *)
Lemma q_netCF_mono (p : Inputs) (c1 c2 : Q) (yr : Z) :
  0 <= bessSize p -> 0 <= debtRatio p <= 1 -> 0 <= interestRate p ->
  c1 <= c2 -> q_netCF p c2 yr <= q_netCF p c1 yr.
Proof.
  intros Hs [Hr0 Hr1] Hi Hc.
  assert (Hcap : q_totalCapex p c1 <= q_totalCapex p c2).
  { unfold q_totalCapex. rewrite !(Qmult_comm (bessSize p)).
    now apply Qmult_le_compat_r. }
  assert (Hdebt : q_debt p c1 <= q_debt p c2)
    by (unfold q_debt; now apply Qmult_le_compat_r).
  assert (Heq : q_equity p c1 <= q_equity p c2).
  { rewrite !q_equity_factor. apply Qmult_le_compat_r; lra. }
  assert (Hom : q_annualOm p c1 <= q_annualOm p c2).
  { unfold q_annualOm. apply Qmult_le_compat_r; [exact Hcap | discriminate]. }
  assert (Hsvc : q_debtSvc p c1 yr <= q_debtSvc p c2 yr).
  { unfold q_debtSvc, q_annualDebtPmt.
    destruct ((0 <? yr)%Z && (yr <=? loanTenor p)%Z); [|lra].
    now apply q_payment_mono. }
  unfold q_netCF. destruct (yr =? 0)%Z; lra.
Qed.

(** The outlay of year 0 is not positive. *)
Lemma q_netCF_year0 (p : Inputs) (c : Q) :
  0 <= bessSize p -> 0 <= debtRatio p <= 1 -> 0 <= c -> q_netCF p c 0 <= 0.
Proof.
  intros Hs [Hr0 Hr1] Hc. unfold q_netCF. cbn [Z.eqb].
  assert (H : 0 <= q_equity p c).
  { rewrite q_equity_factor. unfold q_totalCapex.
    repeat apply Qmult_le_0_compat; lra. }
  lra.
Qed.

(** The cash-flow vector of a point is the list of the closed forms. *)
Lemma sens_flows_values (p : Inputs) (cpx : Q) :
  0 <= interestRate p ->
  Forall2 num_eq (sens_flows (derive p cpx) (loanTenor p))
          (map Fin (map (q_netCF p cpx) year_range)).
Proof.
  intros Hi. unfold sens_flows.
  induction year_range as [|yr yrs IH]; cbn [map]; constructor.
  - now apply year_flow_netCF.
  - exact IH.
Qed.

(** The payback of the sweep does not fall as the capex per kWh rises. *)
Lemma sens_point_payback_mono (p : Inputs) (c1 c2 : Q) :
  0 <= bessSize p -> 0 <= debtRatio p <= 1 -> 0 <= interestRate p ->
  0 <= c1 -> c1 <= c2 ->
  nleb (sp_payback (sens_point p c1)) (sp_payback (sens_point p c2)) = true.
Proof.
  intros Hs Hr Hi H1 H12. unfold sens_point. cbn [sp_payback].
  rewrite (sens_payback_loop_comp _ _ (sens_flows_values p c1 Hi) 0
             (Fin 0) (Fin 0) (num_eq_refl _)).
  rewrite (sens_payback_loop_comp _ _ (sens_flows_values p c2 Hi) 0
             (Fin 0) (Fin 0) (num_eq_refl _)).
  apply sens_payback_mono.
  - induction year_range as [|yr yrs IH]; cbn [map]; constructor.
    + now apply q_netCF_mono.
    + exact IH.
  - rewrite length_map. reflexivity.
  - intros x0 Hx0. change year_range with (0%Z :: tl year_range) in Hx0.
    cbn [map nth_error] in Hx0. injection Hx0 as <-.
    now apply q_netCF_year0.
Qed.

(** C8.  For a capacity that is not negative, a debt ratio between 0 and
    1 and an interest rate that is not negative, the payback values of the
    sensitivity sweep do not decrease as the capex per kWh increases: for
    two points of the sweep with [capex1 < capex2], [payback1 <= payback2]. *)
Theorem sensitivity_payback_monotone (p : Inputs)
  (pt1 pt2 : SensitivityPoint) :
  0 <= bessSize p -> 0 <= debtRatio p <= 1 -> 0 <= interestRate p ->
  In pt1 (sensitivityData p) -> In pt2 (sensitivityData p) ->
  sp_capex pt1 < sp_capex pt2 ->
  nleb (sp_payback pt1) (sp_payback pt2) = true.
Proof.
  intros Hs Hr Hi In1 In2 Hlt.
  unfold sensitivityData in In1, In2.
  apply in_map_iff in In1 as (c1 & <- & Hc1).
  apply in_map_iff in In2 as (c2 & <- & Hc2).
  cbn [sens_point sp_capex] in Hlt.
  apply sens_point_payback_mono; try assumption; [|lra].
  unfold CAPEX_VALUES in Hc1. cbn [In] in Hc1.
  decompose [or] Hc1; subst; try contradiction; discriminate.
Qed.

Lemma sensitivity_payback_monotone_witness :
  nleb (sp_payback (sens_point default_inputs 300))
       (sp_payback (sens_point default_inputs 400)) = true.
Proof.
  apply (sensitivity_payback_monotone default_inputs
           (sens_point default_inputs 300) (sens_point default_inputs 400)).
  - vm_compute. discriminate.
  - split; vm_compute; discriminate.
  - vm_compute. discriminate.
  - unfold sensitivityData, CAPEX_VALUES. cbn [map In].
    left. reflexivity.
  - unfold sensitivityData, CAPEX_VALUES. cbn [map In].
    do 4 right. left. reflexivity.
  - cbn [sens_point sp_capex]. reflexivity.
Defined.

(* ------------------------------------------------------------------ *)
(** ** Shape of the cash-flow table *)
(* ------------------------------------------------------------------ *)

Lemma table_rows_years (d : Derived) (tenor : Z) :
  forall (yrs : list Z) (c : num),
    map year (table_rows d tenor c yrs) = yrs.
Proof.
  induction yrs as [|yr yrs IH]; intros c; cbn [table_rows map];
    [reflexivity|].
  cbn [year]. now rewrite IH.
Qed.

(** X1.  The table of [calc] has one row per year 0 to 12, in that order, and
    its first row holds nothing but the equity outlay: revenue, fee, opex,
    EBITDA and debt service are 0, net and cumulative cash flow are the
    rounding of [-equity]. *)
Theorem calc_table_shape (p : Inputs) :
  map year (flows (calc p)) = [0; 1; 2; 3; 4; 5; 6; 7; 8; 9; 10; 11; 12]%Z /\
  exists f0,
    nth_error (flows (calc p)) 0 = Some f0 /\
    revenue f0 = Fin 0 /\ aggregatorFee f0 = Fin 0 /\ opex f0 = Fin 0 /\
    ebitda f0 = Fin 0 /\ debtService f0 = Fin 0 /\
    netCashFlow f0 =n= nround (nneg (equity (calc p))) /\
    cumulativeCashFlow f0 =n= nround (nneg (equity (calc p))).
Proof.
  rewrite calc_flows. split; [apply table_rows_years|].
  destruct (calc_scalars p) as (_ & _ & -> & _).
  change year_range with (0%Z :: tl year_range).
  cbn [table_rows nth_error]. eexists. split; [reflexivity|].
  cbn [revenue aggregatorFee opex ebitda debtService netCashFlow
       cumulativeCashFlow].
  unfold year_flow.
  cbn [Z.eqb Z.ltb Z.compare andb y_rev y_fee y_opex y_ebitda y_debtSvc
       y_netCF].
  repeat (split; [reflexivity|]).
  assert (E : forall x, nadd (nsub (nsub (Fin 0) (Fin 0)) (Fin 0)) x =n= x).
  { intros x. change (nsub (nsub (Fin 0) (Fin 0)) (Fin 0)) with (Fin 0).
    apply nadd_0_l. }
  split; repeat (rewrite E || rewrite nadd_0_l); reflexivity.
Qed.

(* ------------------------------------------------------------------ *)
(** ** Degradation of the revenue column *)
(* ------------------------------------------------------------------ *)











(* ------------------------------------------------------------------ *)
(** ** Range of the IRR solver *)
(* ------------------------------------------------------------------ *)

Lemma inject_Z_of_nat_S (k : nat) :
  inject_Z (Z.of_nat (S k)) == inject_Z (Z.of_nat k) + 1.
Proof. rewrite Nat2Z.inj_succ. unfold Z.succ. now rewrite inject_Z_plus. Qed.

(** With [k] iterations left, a rate [r] and a step [s > 0], the loop ends
    on a finite rate above [r - 2 s] and at most [r + k s]: a step down
    halves the step, so the steps down add up to less than [2 s]. *)
Lemma calcIRR_loop_range (cashFlows : list num) :
  forall (k : nat) (r s : Q),
    0 < s ->
    exists v,
      calcIRR_loop k cashFlows (Fin r) (Fin s) = Fin v /\
      r - 2 * s < v /\ v <= r + inject_Z (Z.of_nat k) * s.
Proof.
  induction k as [|k IH]; intros r s Hs.
  - exists r. split; [reflexivity|].
    change (inject_Z (Z.of_nat 0)) with 0. split; lra.
  - rewrite calcIRR_loop_S.
    assert (Hprod : inject_Z (Z.of_nat (S k)) * s
                    == inject_Z (Z.of_nat k) * s + s)
      by (rewrite inject_Z_of_nat_S; ring).
    assert (Hk : 0 <= inject_Z (Z.of_nat k)).
    { change 0 with (inject_Z 0). rewrite <- Zle_Qle. lia. }
    assert (Hks : 0 <= inject_Z (Z.of_nat k) * s)
      by (apply Qmult_le_0_compat; lra).
    destruct (nltb _ _).
    + exists r. split; [reflexivity|]. split; lra.
    + destruct (ngtb _ _).
      * cbn [nadd].
        destruct (IH (Qred (r + s)) s Hs) as (v & Hv & Hlo & Hhi).
        rewrite Qred_correct in Hlo, Hhi.
        exists v. split; [exact Hv|]. split; lra.
      * change (ndiv (Fin s) (Fin 2)) with (Fin (Qred (s / 2))).
        cbn [nsub nneg nadd].
        assert (Hs2 : 0 < Qred (s / 2)).
        { rewrite Qred_correct. apply Qlt_shift_div_l; lra. }
        destruct (IH (Qred (r + Qred (- s))) (Qred (s / 2)) Hs2)
          as (v & Hv & Hlo & Hhi).
        rewrite !Qred_correct in Hlo, Hhi.
        assert (E : s / 2 == s * (1 # 2)) by (unfold Qdiv; reflexivity).
        rewrite E in Hlo, Hhi.
        exists v. split; [exact Hv|]. split; [lra|].
        assert (Hh : inject_Z (Z.of_nat k) * (s * (1 # 2))
                     <= inject_Z (Z.of_nat k) * s).
        { rewrite !(Qmult_comm (inject_Z (Z.of_nat k))).
          apply Qmult_le_compat_r; lra. }
        lra.
Qed.

(** X4.  Whatever the cash flows, the solver returns a finite rate of at
    least -10 % and at most 1010 %: it starts at 10 %, rises by at most
    0.1 in each of its 100 iterations, and its descending steps 0.1, 0.05,
    0.025, ... add up to no more than 0.2. *)
Theorem calcIRR_range (cashFlows : list num) :
  exists v,
    calcIRR cashFlows = Fin v /\ - (1 # 10) <= v /\ v <= 101 # 10.
Proof.
  destruct (calcIRR_loop_range cashFlows 100 (1 # 10) (1 # 10))
    as (v & Hv & Hlo & Hhi); [reflexivity|].
  exists v. split; [exact Hv|].
  change (inject_Z (Z.of_nat 100)) with 100 in Hhi. split; lra.
Qed.

(* ------------------------------------------------------------------ *)
(** ** The IRR solver on cash flows that are never positive *)
(* ------------------------------------------------------------------ *)








(* ------------------------------------------------------------------ *)
(** ** Further properties of the sensitivity sweep *)
(* ------------------------------------------------------------------ *)

Lemma sens_point_unrounded_witness :
  sp_payback (sens_point loan_inputs (capexPerKwh loan_inputs)) =n=
  payback_unrounded loan_inputs /\
  sp_irr (sens_point loan_inputs (capexPerKwh loan_inputs)) =
  nmul (irr_unrounded loan_inputs) (Fin 100).
Proof.
  apply (sens_point_unrounded loan_inputs). vm_compute. discriminate.
Defined.

(** X7.  The payback of a point of the sweep is a finite number between 0 and
    the project life: on unrounded flows the year in which the running
    total turns positive has a positive net cash flow, so that the
    interpolation never divides by zero.  The capacity is not negative,
    the debt ratio is between 0 and 1 and the interest rate is not
    negative. *)
Theorem sweep_payback_range (p : Inputs) (pt : SensitivityPoint) :
  0 <= bessSize p -> 0 <= debtRatio p <= 1 -> 0 <= interestRate p ->
  In pt (sensitivityData p) ->
  exists v, sp_payback pt =n= Fin v /\ 0 <= v /\ v <= 12.
Proof.
  intros Hs Hr Hi Hin. unfold sensitivityData in Hin.
  apply in_map_iff in Hin as (c & <- & Hc).
  assert (Hc0 : 0 <= c).
  { unfold CAPEX_VALUES in Hc. cbn [In] in Hc.
    decompose [or] Hc; subst; try contradiction; discriminate. }
  unfold sens_point. cbn [sp_payback].
  pose proof (sens_payback_loop_comp _ _ (sens_flows_values p c Hi) 0
                (Fin 0) (Fin 0) (num_eq_refl _)) as E.
  change year_range with (0%Z :: tl year_range) in E at 1.
  cbn [map sens_payback_loop Z.ltb Z.compare andb nadd] in E.
  destruct (sens_payback_loop_bounds
              (map (q_netCF p c) (tl year_range)) 1
              (Qred (0 + q_netCF p c 0))) as (v & Hv & Hlo & Hhi).
  - lia.
  - rewrite Qred_correct. pose proof (q_netCF_year0 p c Hs Hr Hc0). lra.
  - reflexivity.
  - exists v. split; [now rewrite E, Hv|].
    change (inject_Z 1) with 1 in Hlo. split; lra.
Qed.

Lemma sweep_payback_range_witness :
  exists v,
    sp_payback (sens_point default_inputs 400) =n= Fin v /\
    0 <= v /\ v <= 12.
Proof.
  apply (sweep_payback_range default_inputs (sens_point default_inputs 400)).
  - vm_compute. discriminate.
  - split; vm_compute; discriminate.
  - vm_compute. discriminate.
  - unfold sensitivityData, CAPEX_VALUES. cbn [map In].
    do 4 right. left. reflexivity.
Defined.

(** X8.  The sweep has one point per swept value, in the order of the values,
    and does not read the capex per kWh or the discount rate of the
    inputs: two states that differ in these two cells only have the same
    sensitivity data. *)
Theorem sensitivityData_independent
  (size capex1 capex2 : Q) (scenario : ScenarioKey)
  (discount1 discount2 ratio interest : Q) (tenor : Z) (fee : bool)
  (percent : Q) :
  let p1 := mkInputs size capex1 scenario discount1 ratio interest tenor
                     fee percent in
  let p2 := mkInputs size capex2 scenario discount2 ratio interest tenor
                     fee percent in
  sensitivityData p1 = sensitivityData p2 /\
  map sp_capex (sensitivityData p1) = [300; 325; 350; 375; 400]%Q.
Proof.
  intros p1 p2. split.
  - unfold sensitivityData. apply map_ext. intros c.
    unfold sens_point, derive, p1, p2.
    cbn [bessSize revenueScenario debtRatio interestRate loanTenor
         includeAggregatorFee aggregatorFeePercent].
    reflexivity.
  - unfold sensitivityData, CAPEX_VALUES. cbn [map sens_point sp_capex].
    reflexivity.
Qed.

(* ------------------------------------------------------------------ *)
(** ** The payback of a table *)
(* ------------------------------------------------------------------ *)

(** X9.  The payback of a table is read at the first year [i + 1 >= 1] whose
    cumulative cash flow is positive: with the cumulative [c] of the year
    before and a net cash flow [n <> 0] of that year, it is
    [i + (- c) / n]. *)
Theorem payback_first_crossing (flows : list CashFlowYear) (i : nat)
  (f g : CashFlowYear) (c n : Q) :
  nth_error flows i = Some f ->
  nth_error flows (S i) = Some g ->
  (forall j h, (1 <= j <= i)%nat -> nth_error flows j = Some h ->
               ngtb (cumulativeCashFlow h) (Fin 0) = false) ->
  ngtb (cumulativeCashFlow g) (Fin 0) = true ->
  cumulativeCashFlow f =n= Fin c ->
  netCashFlow g =n= Fin n ->
  ~ n == 0 ->
  payback_of_table flows =n= Fin (inject_Z (Z.of_nat i) + - c / n).
Proof.
  intros Hf Hg Hbefore Hpos Hc Hn Hn0.
  destruct flows as [|f0 rest]; [destruct i; discriminate|].
  cbn [nth_error] in Hg. cbn [payback_of_table].
  rewrite (payback_scan_crossing rest 1 f0 i g f Hg Hf); [|
    intros j' h Hj' Hh; apply (Hbefore (S j') h); [lia | exact Hh] |
    exact Hpos].
  rewrite Hc, Hn. unfold of_Z.
  rewrite nsub_Fin, nneg_Fin, (ndiv_Fin _ _ Hn0), nadd_Fin.
  constructor. rewrite inject_Z_plus. change (inject_Z 1) with 1. ring.
Qed.

Lemma payback_first_crossing_witness :
  payback_of_table
    [mkYear 0 (Fin 0) (Fin 0) (Fin 0) (Fin 0) (Fin 0) (Fin (-100)) (Fin (-100));
     mkYear 1 (Fin 60) (Fin 0) (Fin 0) (Fin 60) (Fin 0) (Fin 60) (Fin (-40));
     mkYear 2 (Fin 70) (Fin 0) (Fin 0) (Fin 70) (Fin 0) (Fin 70) (Fin 30)]
  =n= Fin (inject_Z (Z.of_nat 1) + - (-40) / 70).
Proof.
  eapply (payback_first_crossing _ 1 _ _ (-40) 70).
  - reflexivity.
  - reflexivity.
  - intros j h Hj Hh. assert (j = 1%nat) by lia. subst j.
    cbn in Hh. injection Hh as <-. reflexivity.
  - reflexivity.
  - reflexivity.
  - reflexivity.
  - discriminate.
Defined.

(** X10.  When no year after year 0 has a positive cumulative cash flow in the
    table ([NaN] is not positive), the payback is the project life, 12. *)
Theorem payback_no_crossing (flows : list CashFlowYear) :
  Forall (fun f => ngtb (cumulativeCashFlow f) (Fin 0) = false) (tl flows) ->
  payback_of_table flows = of_Z 12.
Proof.
  intros Hall. destruct flows as [|f0 rest]; [reflexivity|].
  cbn [payback_of_table]. now apply payback_scan_no_crossing.
Qed.

Lemma payback_no_crossing_witness :
  payback_of_table
    [mkYear 0 (Fin 0) (Fin 0) (Fin 0) (Fin 0) (Fin 0) (Fin (-100)) (Fin (-100));
     mkYear 1 (Fin 60) (Fin 0) (Fin 0) (Fin 60) (Fin 0) (Fin 60) (Fin (-40));
     mkYear 2 (Fin 0) (Fin 0) (Fin 0) (Fin 0) (Fin 0) NaN NaN]
  = of_Z 12.
Proof.
  apply payback_no_crossing. repeat constructor.
Defined.

(* ------------------------------------------------------------------ *)
(** ** What the loan costs *)
(* ------------------------------------------------------------------ *)

(** Bernoulli-type bound behind the level payment: for a rate [r > 0],
    [r m (1+r)^m - (1+r)^m + 1] is not negative, and positive from
    [m = 1] on. *)
Lemma annuity_gap (r : Q) :
  0 < r ->
  forall m : nat,
    0 <= r * inject_Z (Z.of_nat m) * (1 + r) ^ Z.of_nat m
         - (1 + r) ^ Z.of_nat m + 1 /\
    0 < r * inject_Z (Z.of_nat (S m)) * (1 + r) ^ Z.of_nat (S m)
        - (1 + r) ^ Z.of_nat (S m) + 1.
Proof.
  intros Hr.
  assert (Hstep : forall m : nat,
             0 <= r * inject_Z (Z.of_nat m) * (1 + r) ^ Z.of_nat m
                  - (1 + r) ^ Z.of_nat m + 1 ->
             0 < r * inject_Z (Z.of_nat (S m)) * (1 + r) ^ Z.of_nat (S m)
                 - (1 + r) ^ Z.of_nat (S m) + 1).
  { intros m Hm.
    assert (EP : (1 + r) ^ Z.of_nat (S m) == (1 + r) ^ Z.of_nat m * (1 + r)).
    { rewrite Nat2Z.inj_succ. unfold Z.succ.
      rewrite Qpower_plus by lra. reflexivity. }
    assert (EM : inject_Z (Z.of_nat (S m)) == inject_Z (Z.of_nat m) + 1).
    { rewrite Nat2Z.inj_succ. unfold Z.succ. now rewrite inject_Z_plus. }
    assert (HP : 0 < (1 + r) ^ Z.of_nat m) by (apply Qpower_0_lt; lra).
    assert (HM : 0 <= inject_Z (Z.of_nat m)).
    { change 0 with (inject_Z 0). rewrite <- Zle_Qle. lia. }
    assert (Hinc : 0 < (1 + r) ^ Z.of_nat m * (r * r)
                       * (inject_Z (Z.of_nat m) + 1)).
    { repeat apply Qmult_lt_0_compat; lra. }
    rewrite EP, EM.
    assert (E : r * (inject_Z (Z.of_nat m) + 1)
                * ((1 + r) ^ Z.of_nat m * (1 + r))
                - (1 + r) ^ Z.of_nat m * (1 + r) + 1
                == (r * inject_Z (Z.of_nat m) * (1 + r) ^ Z.of_nat m
                    - (1 + r) ^ Z.of_nat m + 1)
                   + (1 + r) ^ Z.of_nat m * (r * r)
                     * (inject_Z (Z.of_nat m) + 1)) by ring.
    rewrite E. lra. }
  induction m as [|m [IH0 IH1]].
  - assert (H0 : 0 <= r * inject_Z (Z.of_nat 0) * (1 + r) ^ Z.of_nat 0
                      - (1 + r) ^ Z.of_nat 0 + 1).
    { change (Z.of_nat 0) with 0%Z. change ((1 + r) ^ 0) with 1.
      change (inject_Z 0) with 0. lra. }
    split; [exact H0 | now apply Hstep].
  - split; [lra | apply Hstep; lra].
Qed.

(** In exact arithmetic, over its tenor a loan is repaid at least in full:
    the annual payment times the tenor is the debt when the interest rate
    is 0 and exceeds the debt when the rate is positive. *)
Lemma loan_total_exact (debt rate : Q) (tenor : Z) :
  0 < debt -> 0 <= rate -> (0 < tenor)%Z ->
  exists pmt,
    annual_debt_payment (Fin debt) (Fin rate) tenor =n= Fin pmt /\
    debt <= inject_Z tenor * pmt /\
    (rate == 0 -> inject_Z tenor * pmt == debt) /\
    (0 < rate -> debt < inject_Z tenor * pmt).
Proof.
  intros Hd Hr Ht.
  pose proof (annual_debt_payment_loan debt rate tenor Hd Hr Ht) as Hp.
  assert (Hz : 0 < inject_Z tenor) by now apply inject_Z_pos.
  destruct (Qeq_bool rate 0) eqn:E.
  - apply Qeq_bool_iff in E.
    exists (debt / inject_Z tenor). split; [exact Hp|].
    assert (Eq : inject_Z tenor * (debt / inject_Z tenor) == debt)
      by (field; lra).
    rewrite Eq. repeat split; try lra.
  - apply Qeq_bool_neq in E.
    assert (Hr' : 0 < rate) by lra.
    set (P := (1 + rate) ^ tenor) in *.
    assert (Hden : 0 < P - 1)
      by (apply annuity_denominator_pos; [exact Hr' | exact Ht]).
    exists (debt * rate * P / (P - 1)). split; [exact Hp|].
    assert (Hgap : 0 < rate * inject_Z tenor * P - P + 1).
    { destruct (Z.to_nat tenor) as [|m] eqn:Em; [lia|].
      destruct (annuity_gap rate Hr' m) as [_ H].
      rewrite <- Em, Z2Nat.id in H by lia. exact H. }
    assert (Hlt : debt < inject_Z tenor * (debt * rate * P / (P - 1))).
    { assert (Eq : inject_Z tenor * (debt * rate * P / (P - 1))
                   == debt * (rate * inject_Z tenor * P) / (P - 1))
        by (field; lra).
      rewrite Eq. apply Qlt_shift_div_l; [exact Hden|].
      assert (Hprod : 0 < debt * (rate * inject_Z tenor * P - P + 1))
        by (apply Qmult_lt_0_compat; assumption).
      assert (Eq' : debt * (rate * inject_Z tenor * P - P + 1)
                    == debt * (rate * inject_Z tenor * P) - debt * (P - 1))
        by ring.
      rewrite Eq' in Hprod. lra. }
    repeat split; try lra.
Qed.

(** X11.  For a debt between 1 and [10^12], an interest rate between
    0.1 % and 100 % and a tenor of 1 to 100 years, the loan costs more
    than it lends: the annual payment times the tenor exceeds the debt. *)
Theorem loan_repaid_with_interest (debt rate : Q) (tenor : Z) :
  1 <= debt <= 1000000000000 -> 1 # 1000 <= rate <= 1 ->
  (1 <= tenor <= 100)%Z ->
  exists pmt,
    annual_debt_payment (Fin debt) (Fin rate) tenor =n= Fin pmt /\
    debt < inject_Z tenor * pmt.
Proof.
  intros [Hd _] [Hr _] [Ht _].
  destruct (loan_total_exact debt rate tenor) as (pmt & Hp & _ & _ & Hlt);
    [lra | lra | lia |].
  exists pmt. split; [exact Hp|]. apply Hlt. lra.
Qed.

Lemma loan_repaid_with_interest_witness :
  exists pmt,
    annual_debt_payment (Fin 43750) (Fin (8 # 100)) 7 =n= Fin pmt /\
    43750 < inject_Z 7 * pmt.
Proof.
  apply (loan_repaid_with_interest 43750 (8 # 100) 7).
  - split; vm_compute; discriminate.
  - split; vm_compute; discriminate.
  - lia.
Defined.

(* ------------------------------------------------------------------ *)
(** ** The exported CSV text can be read back *)
(* ------------------------------------------------------------------ *)

Lemma split_at_nonempty (c : ascii) (s : string) : split_at c s <> [].
Proof.
  destruct s as [|a s]; cbn [split_at]; [discriminate|].
  destruct (Ascii.eqb a c); [discriminate|].
  destruct (split_at c s); discriminate.
Qed.

Lemma split_at_free (c : ascii) (s : string) :
  free_of c s = true -> split_at c s = [s].
Proof.
  induction s as [|a s IH]; cbn [free_of split_at]; [reflexivity|].
  intros H. apply andb_prop in H as [Ha Hs].
  apply negb_true_iff in Ha. rewrite Ha, (IH Hs). reflexivity.
Qed.

Lemma split_at_app (c : ascii) (s t : string) :
  free_of c s = true ->
  split_at c (s ++ String c t) = s :: split_at c t.
Proof.
  induction s as [|a s IH]; cbn [free_of split_at append].
  - intros _. now rewrite Ascii.eqb_refl.
  - intros H. apply andb_prop in H as [Ha Hs].
    apply negb_true_iff in Ha. rewrite Ha, (IH Hs). reflexivity.
Qed.

(** Cutting a joined list at the separator gives the list back, when no
    element holds the separator. *)
Lemma split_at_join (c : ascii) (l : list string) :
  l <> [] -> Forall (fun s => free_of c s = true) l ->
  split_at c (join (String c EmptyString) l) = l.
Proof.
  intros Hne Hall. induction Hall as [|s rest Hs Hrest IH]; [contradiction|].
  cbn [join]. destruct rest as [|s' rest'].
  - now apply split_at_free.
  - change (s ++ String c EmptyString ++ join (String c EmptyString)
                                               (s' :: rest'))%string
      with (s ++ String c (join (String c EmptyString) (s' :: rest')))%string.
    rewrite (split_at_app c _ _ Hs). f_equal. apply IH. discriminate.
Qed.

Lemma free_of_app (c : ascii) (s t : string) :
  free_of c s = true -> free_of c t = true -> free_of c (s ++ t) = true.
Proof.
  induction s as [|a s IH]; cbn [free_of append]; [auto|].
  intros H Ht. apply andb_prop in H as [Ha Hs].
  rewrite Ha. cbn [andb]. now apply IH.
Qed.

Lemma free_of_join (c : ascii) (sep : string) (l : list string) :
  free_of c sep = true -> Forall (fun s => free_of c s = true) l ->
  free_of c (join sep l) = true.
Proof.
  intros Hsep Hall. induction Hall as [|s rest Hs Hrest IH]; [reflexivity|].
  cbn [join]. destruct rest as [|s' rest']; [exact Hs|].
  apply free_of_app; [exact Hs|]. now apply free_of_app.
Qed.

(** Decimal digits hold neither a comma nor a line feed. *)
Lemma digits_free (d : Decimal.uint) :
  free_of "," (NilEmpty.string_of_uint d) = true /\
  free_of (ascii_of_nat 10) (NilEmpty.string_of_uint d) = true.
Proof.
  induction d as [|d [IH1 IH2]|d [IH1 IH2]|d [IH1 IH2]|d [IH1 IH2]
                  |d [IH1 IH2]|d [IH1 IH2]|d [IH1 IH2]|d [IH1 IH2]
                  |d [IH1 IH2]|d [IH1 IH2]];
    cbn [NilEmpty.string_of_uint free_of]; rewrite ?IH1, ?IH2;
    split; reflexivity.
Qed.

Lemma string_of_int_free (d : Decimal.int) :
  free_of "," (NilZero.string_of_int d) = true /\
  free_of (ascii_of_nat 10) (NilZero.string_of_int d) = true.
Proof.
  assert (H : forall u,
             free_of "," (NilZero.string_of_uint u) = true /\
             free_of (ascii_of_nat 10) (NilZero.string_of_uint u) = true).
  { intros u. destruct u; try (split; reflexivity); apply digits_free. }
  destruct d as [u|u]; cbn [NilZero.string_of_int]; [apply H|].
  destruct (H u) as [H1 H2]. cbn [free_of]. rewrite H1, H2.
  split; reflexivity.
Qed.

(** The text of a number holds neither a comma nor a line feed. *)
Lemma Number_toString_free (x : num) (s : string) :
  Number_toString x = Some s ->
  free_of "," s = true /\ free_of (ascii_of_nat 10) s = true.
Proof.
  destruct x as [q| | |]; cbn [Number_toString].
  - destruct (safe_integer q) as [z|]; [|discriminate].
    cbn [option_map]. intros H. injection H as <-.
    apply string_of_int_free.
  - intros H. injection H as <-. split; reflexivity.
  - intros H. injection H as <-. split; reflexivity.
  - intros H. injection H as <-. split; reflexivity.
Qed.

Lemma safe_integer_value (q : Q) (z : Z) :
  safe_integer q = Some z -> q == inject_Z z /\ (Z.abs z <= 2 ^ 53 - 1)%Z.
Proof.
  unfold safe_integer.
  destruct (Qden (Qred q) =? 1)%positive eqn:Ed; [|discriminate].
  destruct (Z.abs (Qnum (Qred q)) <=? 2 ^ 53 - 1)%Z eqn:Eb; [|discriminate].
  cbn [andb]. intros H. injection H as <-.
  apply Pos.eqb_eq in Ed. apply Z.leb_le in Eb. split; [|exact Eb].
  rewrite <- (Qred_correct q) at 1.
  destruct (Qred q) as [n d]. cbn [Qnum Qden] in *. subst d. reflexivity.
Qed.

Lemma to_int_parse (z : Z) :
  NilZero.int_of_string (NilZero.string_of_int (Z.to_int z))
  = Some (Z.to_int z).
Proof.
  apply NilZero.isi; destruct z as [|p|p]; cbn [Z.to_int];
    try discriminate; intros H; injection H as H;
    now apply Unsigned.to_uint_nonnil in H.
Qed.

(** Reading the text of a number gives the number back. *)
Lemma parse_number_toString (x : num) (s : string) :
  Number_toString x = Some s ->
  exists y, parse_number s = Some y /\ y =n= x.
Proof.
  destruct x as [q| | |]; cbn [Number_toString].
  - destruct (safe_integer q) as [z|] eqn:E; [|discriminate].
    cbn [option_map]. intros H. injection H as <-.
    exists (of_Z z). unfold parse_number.
    rewrite to_int_parse, DecimalZ.of_to. split; [reflexivity|].
    constructor. symmetry. now apply safe_integer_value.
  - intros H. injection H as <-. exists PInf. split; [reflexivity|constructor].
  - intros H. injection H as <-. exists NInf. split; [reflexivity|constructor].
  - intros H. injection H as <-. exists NaN. split; [reflexivity|constructor].
Qed.

Lemma all_some_map {A B : Type} (f : A -> option B) :
  forall (l : list A) (r : list B),
    all_some (map f l) = Some r -> Forall2 (fun a b => f a = Some b) l r.
Proof.
  induction l as [|a l IH]; intros r; cbn [map all_some].
  - intros H. injection H as <-. constructor.
  - destruct (f a) as [b|] eqn:E; [|discriminate].
    destruct (all_some (map f l)) as [r'|]; [|discriminate].
    cbn [option_map]. intros H. injection H as <-.
    constructor; [exact E | now apply IH].
Qed.

(** A row, cut at its commas, is the texts of its eight cells; it holds
    no line feed. *)
Lemma csv_row_cells (f : CashFlowYear) (r : string) :
  csv_row f = Some r ->
  free_of (ascii_of_nat 10) r = true /\
  Forall2 (fun x s => Number_toString x = Some s) (csv_cells f)
          (split_at "," r).
Proof.
  unfold csv_row.
  destruct (all_some (map Number_toString (csv_cells f))) as [cs|] eqn:E;
    [|discriminate].
  cbn [option_map]. intros H. injection H as <-.
  apply all_some_map in E.
  assert (Hfree : Forall (fun s => free_of "," s = true /\
                                   free_of (ascii_of_nat 10) s = true) cs).
  { clear -E. induction E as [|x s xs cs Hx _ IH]; constructor; [|exact IH].
    now apply (Number_toString_free x). }
  split.
  - apply free_of_join; [reflexivity|].
    eapply Forall_impl; [|exact Hfree]. intros s Hs. apply Hs.
  - change ","%string with (String "," EmptyString).
    rewrite split_at_join; [exact E | |].
    + intros ->. inversion E.
    + eapply Forall_impl; [|exact Hfree]. intros s Hs. apply Hs.
Qed.

Lemma csv_text_rows (flows : list CashFlowYear) (text : string) :
  csv_text flows = Some text ->
  exists rs,
    all_some (map csv_row flows) = Some rs /\
    text = join (String (ascii_of_nat 10) EmptyString)
                (join "," csv_headers :: rs).
Proof.
  unfold csv_text.
  destruct (all_some (map csv_row flows)) as [rs|]; [|discriminate].
  intros H. exists rs. split; [reflexivity|].
  assert (E : forall a b : string, Some a = Some b -> b = a)
    by (intros a b Hab; congruence).
  apply E. exact H.
Qed.

(** X12.  The exported text can be read back.  Whenever every cell of the table
    has a text, cutting the exported text at its line feeds and each line
    at its commas gives the header line followed by one line per row of
    the table, in order, and the eight fields of a line spell the eight
    numbers of its row. *)
Theorem csv_round_trip (flows : list CashFlowYear) (text : string) :
  csv_text flows = Some text ->
  exists rows,
    parse_csv text = csv_headers :: rows /\
    Forall2
      (fun f row =>
         Forall2 (fun x s => exists y, parse_number s = Some y /\ y =n= x)
                 (csv_cells f) row)
      flows rows.
Proof.
  intros H. apply csv_text_rows in H as (rs & E & ->).
  apply all_some_map in E.
  exists (map (split_at ",") rs). split.
  - unfold parse_csv.
    rewrite (split_at_join (ascii_of_nat 10) (join "," csv_headers :: rs)).
    + reflexivity.
    + discriminate.
    + constructor; [reflexivity|].
      clear -E. induction E as [|f r fs rs Hr _ IH]; constructor; [|exact IH].
      now apply (csv_row_cells f r).
  - clear -E. induction E as [|f r fs rs Hr _ IH]; cbn [map]; constructor;
      [|exact IH].
    destruct (csv_row_cells f r Hr) as [_ Hcells].
    eapply Forall2_impl; [|exact Hcells].
    intros x s Hs. now apply parse_number_toString.
Qed.

Lemma csv_round_trip_witness :
  exists text rows,
    exportToCSV default_inputs = Some text /\
    parse_csv text = csv_headers :: rows /\
    Forall2
      (fun f row =>
         Forall2 (fun x s => exists y, parse_number s = Some y /\ y =n= x)
                 (csv_cells f) row)
      (flows (calc default_inputs)) rows.
Proof.
  destruct (exportToCSV default_inputs) as [text|] eqn:E;
    [|vm_compute in E; discriminate E].
  destruct (csv_round_trip (flows (calc default_inputs)) text E)
    as (rows & H1 & H2).
  exists text, rows. split; [reflexivity|]. split; assumption.
Defined.
